(** * Farm pipeline: rate limiting, retry and Redis-backed progress store

    A shallow embedding of the core of the farm description pipeline:

    - [src/redis_storage.py]            the [FarmStorage] class,
    - [src/utils/rate_limiter.py]       [RateLimiter] and [AdaptiveRateLimiter],
    - [src/utils/retry.py]              [exponential_backoff] and [retry_async],
    - [src/redis_description_workflow.py]  [process_farm_batch].

    Conventions of the embedding.

    - Records loaded from JSON are values of [json]; numbers are the integer
      ones, text is ASCII.
    - Python floats are exact rationals ([Q]); the statements are about the
      arithmetic the code performs, not about rounding.
    - A raised exception is a value of [exn] in the left summand of a result.
    - The wall clock, the random generator and the remote services are inputs:
      a list of clock readings, a jitter draw, and functions that answer for
      the scraper, the text generator and the CSV writer.
    - The Redis connection is healthy: a command buffer either is rejected as
      a whole while it is packed ([DataError]) or is applied as a whole. *)

From Stdlib Require Import ZArith QArith Qminmax Qabs Lqa List Ascii String Bool Lia.
From stdpp Require Import base gmap sets strings list fin_maps pretty.

(* ===================================================================== *)
(** * Python values *)
(* ===================================================================== *)

Set Warnings "-register-all,-clear-no-such-hyp".

Module Py.

Inductive json : Type :=
| JNull
| JBool (b : bool)
| JNum (n : Z)
| JStr (s : string)
| JList (items : list json)
| JObj (fields : list (string * json)).

Inductive exn : Type :=
| AttributeError
| TypeError
| DataError
| ZeroDivisionError.

Definition result (A : Type) : Type := exn + A.

Definition ret {A} (a : A) : result A := inr a.
Definition raise {A} (e : exn) : result A := inl e.
Definition bind {A B} (m : result A) (k : A → result B) : result B :=
  match m with
  | inl e => inl e
  | inr a => k a
  end.

Declare Scope py_scope.
Delimit Scope py_scope with py.
Notation "'try!' x := m 'in' k" := (bind m (λ x, k))
  (at level 10, x name, m at level 100, k at level 200) : py_scope.

(** [bool(v)] *)
Definition truthy (v : json) : bool :=
  match v with
  | JNull => false
  | JBool b => b
  | JNum n => negb (n =? 0)%Z
  | JStr s => negb (String.eqb s "")
  | JList items => match items with [] => false | _ => true end
  | JObj fields => match fields with [] => false | _ => true end
  end.

(** Lookup in a [dict] loaded from JSON, the first binding of a key. *)
Fixpoint dict_lookup (k : string) (fields : list (string * json)) : option json :=
  match fields with
  | [] => None
  | (k', v) :: rest => if String.eqb k k' then Some v else dict_lookup k rest
  end.

(** [v.get(k)]: only a [dict] has the method. *)
Definition get (v : json) (k : string) : result (option json) :=
  match v with
  | JObj fields => ret (dict_lookup k fields)
  | _ => raise AttributeError
  end.

(** [v.get(k, d)] *)
Definition get_default (v : json) (k : string) (d : json) : result json :=
  match v with
  | JObj fields => ret (default d (dict_lookup k fields))
  | _ => raise AttributeError
  end.

(** [s.lower()] on ASCII text. *)
Definition ascii_lower (c : ascii) : ascii :=
  let n := nat_of_ascii c in
  if (65 <=? n)%nat && (n <=? 90)%nat then ascii_of_nat (n + 32) else c.

Fixpoint lower (s : string) : string :=
  match s with
  | EmptyString => EmptyString
  | String c rest => String (ascii_lower c) (lower rest)
  end.

(** [v.lower()]: only a [str] has the method. *)
Definition lower_of (v : json) : result string :=
  match v with
  | JStr s => ret (lower s)
  | _ => raise AttributeError
  end.

(** [sub in s] on strings. *)
Fixpoint contains (sub s : string) : bool :=
  String.prefix sub s ||
  match s with
  | EmptyString => false
  | String _ rest => contains sub rest
  end.

(** [len(v)] and the items a [for] loop over [v] visits. *)
Definition iter (v : json) : result (list json) :=
  match v with
  | JList items => ret items
  | JObj fields => ret (map (λ kv, JStr (fst kv)) fields)
  | JStr s => ret (map (λ c, JStr (String c EmptyString)) (list_ascii_of_string s))
  | _ => raise TypeError
  end.

End Py.

(* ===================================================================== *)
(** * The Redis store of [FarmStorage] *)
(* ===================================================================== *)

Module Storage.
Import Py.
Local Open Scope py_scope.

(** The value of a hash field is text: [str(v)] for a scalar, and
    [json.dumps(v)] for a list or a dict, which is kept as the value it
    prints. *)
Inductive hval : Type :=
| Text (s : string)
| Dumps (v : json).

(** The set keys of [__init__]; each is a string that starts with
    [farms:]. *)
Inductive set_key : Type :=
| FARMS_ALL
| FARMS_PROCESSED
| FARMS_FAILED
| FARMS_NEEDS_DESCRIPTION
| FARMS_PRIORITY.

Definition key_name (k : set_key) : string :=
  match k with
  | FARMS_ALL => "farms:all"
  | FARMS_PROCESSED => "farms:processed"
  | FARMS_FAILED => "farms:failed"
  | FARMS_NEEDS_DESCRIPTION => "farms:needs_description"
  | FARMS_PRIORITY => "farms:priority"
  end.

(** The database: the hashes under [farm:<id>] and the sets under the
    [farms:] keys. *)
Record store : Type := mkStore {
  farm_data : gmap string (gmap string hval);
  farms_all : gset string;
  farms_processed : gset string;
  farms_failed : gset string;
  farms_needs_description : gset string;
  farms_priority : gset string
}.

Definition empty_store : store :=
  mkStore ∅ ∅ ∅ ∅ ∅ ∅.

Definition smembers (k : set_key) (st : store) : gset string :=
  match k with
  | FARMS_ALL => farms_all st
  | FARMS_PROCESSED => farms_processed st
  | FARMS_FAILED => farms_failed st
  | FARMS_NEEDS_DESCRIPTION => farms_needs_description st
  | FARMS_PRIORITY => farms_priority st
  end.

Definition set_members (k : set_key) (s : gset string) (st : store) : store :=
  match k with
  | FARMS_ALL =>
      mkStore (farm_data st) s (farms_processed st) (farms_failed st)
              (farms_needs_description st) (farms_priority st)
  | FARMS_PROCESSED =>
      mkStore (farm_data st) (farms_all st) s (farms_failed st)
              (farms_needs_description st) (farms_priority st)
  | FARMS_FAILED =>
      mkStore (farm_data st) (farms_all st) (farms_processed st) s
              (farms_needs_description st) (farms_priority st)
  | FARMS_NEEDS_DESCRIPTION =>
      mkStore (farm_data st) (farms_all st) (farms_processed st) (farms_failed st)
              s (farms_priority st)
  | FARMS_PRIORITY =>
      mkStore (farm_data st) (farms_all st) (farms_processed st) (farms_failed st)
              (farms_needs_description st) s
  end.

Definition scard (k : set_key) (st : store) : nat := size (smembers k st).

(** What the client sends for a key or a member: text as it is, an integer
    in decimal; [None], [True], a list or a dict are refused ([DataError])
    when the buffer is packed. *)
Definition redis_encode (v : json) : option string :=
  match v with
  | JStr s => Some s
  | JNum n => Some (pretty n)
  | _ => None
  end.

(** [self.FARM_DATA.format(farm_id)]. For an id the client refuses, the
    buffer that names this key is rejected before the key is used. *)
Definition farm_key (farm_id : json) : string :=
  "farm:" +:+ default "" (redis_encode farm_id).

(** A pipeline is a buffer of commands, sent by [execute] in one
    transaction. *)
Inductive command : Type :=
| HSET_mapping (key : string) (mapping : list (string * hval))
| HSET (key field : string) (value : hval)
| SADD (k : set_key) (member : json)
| SREM (k : set_key) (member : json).

Definition packable (c : command) : bool :=
  match c with
  | HSET_mapping _ _ | HSET _ _ _ => true
  | SADD _ member | SREM _ member => bool_decide (is_Some (redis_encode member))
  end.

Definition hash_at (key : string) (st : store) : gmap string hval :=
  default ∅ (farm_data st !! key).

Definition set_hash (key : string) (h : gmap string hval) (st : store) : store :=
  mkStore (<[key := h]> (farm_data st)) (farms_all st) (farms_processed st)
          (farms_failed st) (farms_needs_description st) (farms_priority st).

Definition apply_command (st : store) (c : command) : store :=
  match c with
  | HSET_mapping key mapping =>
      set_hash key (list_to_map mapping ∪ hash_at key st) st
  | HSET key field value =>
      set_hash key (<[field := value]> (hash_at key st)) st
  | SADD k member =>
      match redis_encode member with
      | Some m => set_members k ({[m]} ∪ smembers k st) st
      | None => st
      end
  | SREM k member =>
      match redis_encode member with
      | Some m => set_members k (smembers k st ∖ {[m]}) st
      | None => st
      end
  end.

(** [pipe.execute()] *)
Definition execute (cmds : list command) (st : store) : result store :=
  if forallb packable cmds then ret (fold_left apply_command cmds st)
  else raise DataError.

(** [clear_all_data]: [keys("farms:*")] names the five sets and none of the
    hashes, whose keys start with [farm:]. *)
Definition clear_all_data (st : store) : store :=
  mkStore (farm_data st) ∅ ∅ ∅ ∅ ∅.

Definition socials : list string := ["facebook"; "instagram"; "twitter"].

(** [website and not any(social in website.lower() for social in [...])] *)
Definition usable_website (website : json) : result bool :=
  if truthy website then
    try! w := lower_of website in
    ret (negb (existsb (λ social, contains social w) socials))
  else ret false.

(** [json.dumps(v) if isinstance(v, (dict, list)) else str(v)] *)
Definition render (v : json) : hval :=
  match v with
  | JNull => Text "None"
  | JBool true => Text "True"
  | JBool false => Text "False"
  | JNum n => Text (pretty n)
  | JStr s => Text s
  | JList _ | JObj _ => Dumps v
  end.

Definition farm_fields (farm : json) : list (string * hval) :=
  match farm with
  | JObj fields => map (λ kv, (fst kv, render (snd kv))) fields
  | _ => []
  end.

(** The tracking set a farm is added to (lines 106-111 of
    [save_farms_batch], the same test as in [save_farm]): [Processed] with
    a description, [needs_description] with a website that is no social
    page, otherwise none. *)
Definition tracking_set (farm : json) : result (option set_key) :=
  try! description := get farm "description" in
  if truthy (default JNull description) then ret (Some FARMS_PROCESSED)
  else
    try! contact := get_default farm "contact" (JObj []) in
    try! website := get_default contact "website" (JStr "") in
    try! ok := usable_website website in
    if ok then ret (Some FARMS_NEEDS_DESCRIPTION) else ret None.

(** The body of the loop of [save_farms_batch] for one farm: the commands
    it buffers, or [None] when the farm has no id and is skipped. *)
Definition save_one (farm : json) : result (option (list command)) :=
  try! id := get farm "id" in
  let farm_id := default JNull id in
  if negb (truthy farm_id) then ret None
  else
    try! tracked := tracking_set farm in
    ret (Some ([HSET_mapping (farm_key farm_id) (farm_fields farm);
                SADD FARMS_ALL farm_id]
               ++ match tracked with
                  | Some k => [SADD k farm_id]
                  | None => []
                  end)).

(** The loop: the buffer and the count of skipped farms. *)
Fixpoint save_loop (farms : list json) (buffer : list command) (failed : nat)
  : result (list command * nat) :=
  match farms with
  | [] => ret (buffer, failed)
  | farm :: rest =>
      try! r := save_one farm in
      match r with
      | None => save_loop rest buffer (S failed)
      | Some cmds => save_loop rest (buffer ++ cmds) failed
      end
  end.

Record counts : Type := mkCounts { success : nat; failed : nat }.

(** [save_farms_batch] *)
Definition save_farms_batch (farms : list json) (st : store) : counts * store :=
  match (try! bf := save_loop farms [] 0 in
         try! st' := execute (fst bf) st in
         ret (snd bf, st')) with
  | inr (skipped, st') => (mkCounts (length farms) skipped, st')
  | inl _ => (mkCounts 0 (length farms), st)
  end.

(** [update_farm_description]; [now] is [datetime.now().isoformat()]. *)
Definition update_farm_description (farm_id : json) (description now : string)
    (st : store) : bool * store :=
  let farm_key := farm_key farm_id in
  match execute [HSET farm_key "description" (Text description);
                 HSET farm_key "updatedAt" (Text now);
                 SADD FARMS_PROCESSED farm_id;
                 SREM FARMS_NEEDS_DESCRIPTION farm_id] st with
  | inr st' => (true, st')
  | inl _ => (false, st)
  end.

(** The counts of [get_pipeline_status]. *)
Record status : Type := mkStatus {
  total_farms : nat;
  processed_farms : nat;
  failed_farms : nat;
  needs_description : nat
}.

Definition get_pipeline_status (st : store) : status :=
  mkStatus (scard FARMS_ALL st) (scard FARMS_PROCESSED st)
           (scard FARMS_FAILED st) (scard FARMS_NEEDS_DESCRIPTION st).

(** [import_from_json]; [file] is the parsed content of the file, [None]
    when the file is missing or is not JSON. *)
Definition import_from_json (file : option json) (st : store) : counts * store :=
  match file with
  | None => (mkCounts 0 0, st)
  | Some farms =>
      match iter farms with
      | inl _ => (mkCounts 0 0, st)
      | inr items => save_farms_batch items (clear_all_data st)
      end
  end.

(** ** The properties the specification states of the store *)

(** The partition invariant: every known id is in exactly one of the three
    status sets, the sets are pairwise disjoint, and their sizes add up to
    the number of known ids. *)
Definition partition (st : store) : Prop :=
  let A := farms_all st in
  let N := farms_needs_description st in
  let P := farms_processed st in
  let F := farms_failed st in
  (∀ x, x ∈ A →
        (x ∈ N ∧ (x ∉ P) ∧ (x ∉ F))
        ∨ ((x ∉ N) ∧ x ∈ P ∧ (x ∉ F))
        ∨ ((x ∉ N) ∧ (x ∉ P) ∧ x ∈ F))
  ∧ N ## P ∧ N ## F ∧ P ## F
  ∧ size N + size P + size F = size A.

(** The member a record is known under: its id, when it has one the loop
    accepts and the client can send. *)
Definition member_of (farm : json) : option string :=
  match farm with
  | JObj fields =>
      match dict_lookup "id" fields with
      | Some v => if truthy v then redis_encode v else None
      | None => None
      end
  | _ => None
  end.

Definition distinct_ids (farms : list json) : Prop :=
  NoDup (omap member_of farms).

(** A record is tracked when the loop skips it or adds it to one of the
    status sets. *)
Definition tracked (farm : json) : Prop :=
  member_of farm = None ∨ ∃ k, tracking_set farm = inr (Some k).

(** ** Invariants of the loop of [save_farms_batch] *)

(** Nothing is marked failed, and the status sets hold known ids only. *)
Definition basic (st : store) : Prop :=
  farms_failed st = ∅
  ∧ farms_processed st ⊆ farms_all st
  ∧ farms_needs_description st ⊆ farms_all st.

(** With the records still to come: the two written status sets are
    apart, and the ids to come are new and differ from each other. *)
Definition separate (farms : list json) (st : store) : Prop :=
  basic st
  ∧ farms_processed st ## farms_needs_description st
  ∧ NoDup (omap member_of farms)
  ∧ ∀ m, m ∈ omap member_of farms → m ∉ farms_all st.

(** Every known id has a status, and so will the records to come. *)
Definition covered (farms : list json) (st : store) : Prop :=
  Forall tracked farms
  ∧ farms_all st ⊆ farms_processed st ∪ farms_needs_description st.

(** Two stores with the same sets, whatever their hashes. *)
Definition same_sets (s1 s2 : store) : Prop := ∀ k, smembers k s1 = smembers k s2.

(** ** Sample snapshots *)

(** A record with neither a description nor a website. *)
Definition orphan_snapshot : json :=
  JList [JObj [("id", JStr "farm-1"); ("name", JStr "Orphan Farm")]].

(** Two records under one id. *)
Definition twin_snapshot : json :=
  JList [JObj [("id", JStr "farm-1"); ("description", JStr "text")];
         JObj [("id", JStr "farm-1");
               ("contact", JObj [("website", JStr "http://farm.example")])]].

Definition mixed_farms : list json :=
  [JObj [("id", JStr "farm-1"); ("name", JStr "Orphan Farm")];
   JObj [("id", JStr "farm-2"); ("description", JStr "text")];
   JObj [("id", JNum 3);
         ("contact", JObj [("website", JStr "http://farm.example")])];
   JObj [("name", JStr "No id")]].

(** A store whose one farm has its description. *)
Definition described_store : store :=
  snd (import_from_json
         (Some (JList [JObj [("id", JStr "farm-1"); ("description", JStr "old text")]]))
         empty_store).

End Storage.

(* ===================================================================== *)
(** * [utils/rate_limiter.py] *)
(* ===================================================================== *)

Module RateLimit.
Import Py.
Local Open Scope py_scope.
Local Open Scope Q_scope.

(** [a / b] on floats. *)
Definition py_div (a b : Q) : result Q :=
  if Qeq_bool b 0 then raise ZeroDivisionError else ret (a / b).

Definition Qltb (a b : Q) : bool := negb (Qle_bool b a).

(** [min(a, b)] and [max(a, b)]: the first argument unless the second is
    strictly smaller (larger). *)
Definition py_min (a b : Q) : Q := if Qltb b a then b else a.
Definition py_max (a b : Q) : Q := if Qltb a b then b else a.

(** [int(x)]: truncation towards zero. *)
Definition py_int (x : Q) : Z := Z.quot (Qnum x) (Zpos (Qden x)).

Record limiter : Type := mkLimiter {
  max_requests : Z;
  time_window : Q;
  burst_size : Z;
  tokens : Q;
  last_update : Q
}.

(** [RateLimiter.__init__]; [now] is the reading of [time.time()]. *)
Definition RateLimiter (max_requests : Z) (time_window : Q) (burst_size : option Z)
    (now : Q) : limiter :=
  let burst_size :=
    match burst_size with
    | Some b => if (b =? 0)%Z then max_requests else b
    | None => max_requests
    end in
  mkLimiter max_requests time_window burst_size (inject_Z burst_size) now.

Definition with_tokens (t : Q) (l : limiter) : limiter :=
  mkLimiter (max_requests l) (time_window l) (burst_size l) t (last_update l).

(** Lines 73-78 of [acquire]: the refill at clock reading [now]. *)
Definition refill (now : Q) (l : limiter) : result limiter :=
  let elapsed := now - last_update l in
  try! rate := py_div (inject_Z (max_requests l)) (time_window l) in
  let refill := elapsed * rate in
  ret (mkLimiter (max_requests l) (time_window l) (burst_size l)
                 (py_min (inject_Z (burst_size l)) (tokens l + refill)) now).

Inductive attempt_result : Type :=
| Granted (l : limiter)
| Sleep (wait_time : Q) (l : limiter).

(** One turn of the loop of [acquire], the part run under the lock. *)
Definition attempt (now : Q) (n : Z) (l : limiter) : result attempt_result :=
  try! l := refill now l in
  if Qle_bool (inject_Z n) (tokens l) then
    ret (Granted (with_tokens (tokens l - inject_Z n) l))
  else
    let tokens_needed := inject_Z n - tokens l in
    try! q := py_div tokens_needed (inject_Z (max_requests l)) in
    ret (Sleep (q * time_window l) l).

Inductive acquire_result : Type :=
| Returned (l : limiter)
| Waiting (l : limiter).

(** [acquire(tokens)]: every turn of the loop takes one clock reading;
    [Waiting] is a call still in its loop when the readings end. *)
Fixpoint acquire (clock : list Q) (n : Z) (l : limiter) : result acquire_result :=
  match clock with
  | [] => ret (Waiting l)
  | now :: later =>
      try! r := attempt now n l in
      match r with
      | Granted l' => ret (Returned l')
      | Sleep _ l' => acquire later n l'
      end
  end.

(** The turns of several callers of one limiter, in the order the lock
    serialises them, each with its clock reading and its request: the
    limiter after each refill and after each decrement. *)
Fixpoint observed (turns : list (Q * Z)) (l : limiter) : result (list limiter) :=
  match turns with
  | [] => ret []
  | (now, n) :: later =>
      try! refilled := refill now l in
      try! r := attempt now n l in
      match r with
      | Granted l' =>
          try! rest := observed later l' in ret (refilled :: l' :: rest)
      | Sleep _ l' =>
          try! rest := observed later l' in ret (refilled :: rest)
      end
  end.

Fixpoint nondecreasing (from : Q) (readings : list Q) : Prop :=
  match readings with
  | [] => True
  | now :: later => from <= now ∧ nondecreasing now later
  end.

Definition valid_config (l : limiter) : Prop :=
  (0 < max_requests l)%Z ∧ 0 < time_window l ∧ (max_requests l <= burst_size l)%Z.

Definition within_bounds (l : limiter) : Prop :=
  0 <= tokens l ∧ tokens l <= inject_Z (burst_size l).

(** ** [AdaptiveRateLimiter] *)

Record adaptive : Type := mkAdaptive {
  current_rate : Q;
  min_rate : Q;
  max_rate : Q;
  increase_factor : Q;
  decrease_factor : Q;
  inner : limiter;
  consecutive_successes : Z
}.

Definition with_rate (r : Q) (a : adaptive) : adaptive :=
  mkAdaptive r (min_rate a) (max_rate a) (increase_factor a) (decrease_factor a)
             (inner a) (consecutive_successes a).

Definition with_inner (l : limiter) (a : adaptive) : adaptive :=
  mkAdaptive (current_rate a) (min_rate a) (max_rate a) (increase_factor a)
             (decrease_factor a) l (consecutive_successes a).

Definition with_successes (c : Z) (a : adaptive) : adaptive :=
  mkAdaptive (current_rate a) (min_rate a) (max_rate a) (increase_factor a)
             (decrease_factor a) (inner a) c.

(** [AdaptiveRateLimiter.__init__] *)
Definition AdaptiveRateLimiter (initial_rate min_rate max_rate increase_factor
    decrease_factor : Q) (now : Q) : adaptive :=
  mkAdaptive initial_rate min_rate max_rate increase_factor decrease_factor
             (RateLimiter (py_int initial_rate) 1 (Some (py_int (initial_rate * 2))) now)
             0.

Definition _update_limiter (now : Q) (a : adaptive) : adaptive :=
  with_inner (RateLimiter (py_int (current_rate a)) 1
                          (Some (py_int (current_rate a * 2))) now) a.

Definition _increase_rate (now : Q) (a : adaptive) : adaptive :=
  let old_rate := current_rate a in
  let a := with_rate (py_min (max_rate a) (current_rate a * increase_factor a)) a in
  if negb (Qeq_bool (current_rate a) old_rate) then _update_limiter now a else a.

Definition _decrease_rate (now : Q) (a : adaptive) : adaptive :=
  let old_rate := current_rate a in
  let a := with_rate (py_max (min_rate a) (current_rate a * decrease_factor a)) a in
  if negb (Qeq_bool (current_rate a) old_rate) then _update_limiter now a else a.

Definition on_success (now : Q) (a : adaptive) : adaptive :=
  let a := with_successes (consecutive_successes a + 1) a in
  if (10 <=? consecutive_successes a)%Z then
    with_successes 0 (_increase_rate now a)
  else a.

Definition on_rate_limit (now : Q) (a : adaptive) : adaptive :=
  let a := with_successes 0 a in
  _decrease_rate now a.

(** Successive calls, one clock reading each (read when the limiter is
    rebuilt). *)
Definition on_success_run (clock : list Q) (a : adaptive) : adaptive :=
  fold_left (λ a now, on_success now a) clock a.

Definition on_rate_limit_run (clock : list Q) (a : adaptive) : adaptive :=
  fold_left (λ a now, on_rate_limit now a) clock a.

Definition rate_in_range (a : adaptive) : Prop :=
  min_rate a <= current_rate a ∧ current_rate a <= max_rate a.

(** ** Invariants of the reports of rate limiting *)

(** A rate that [int] truncates to zero has a limiter that grants
    nothing. *)
Definition starved (a : adaptive) : Prop :=
  -1 < current_rate a ∧ current_rate a < 1 → max_requests (inner a) = 0%Z.

(** After [j] reports the rate [r] is strictly between -1 and 1, or
    bounded by a quantity that shrinks with [j]; [c] bounds the rate at the
    start and [d] is the factor. *)
Definition shrunk (c d : Q) (j : nat) (r : Q) : Prop :=
  (-1 < r ∧ r < 1)
  ∨ (- (c * d) <= r * (d + inject_Z (Z.of_nat j) * (1 - d))
     ∧ r * (d + inject_Z (Z.of_nat j) * (1 - d)) <= c * d).

(** ** Sample limiters *)

(** [DEEPSEEK_RATE_LIMIT]: ten requests a second, bursts of twenty. *)
Definition deepseek_limiter : limiter := RateLimiter 10 1 (Some 20%Z) 0.

Definition busy_turns : list (Q * Z) :=
  [(0, 5%Z); (1 # 2, 20%Z); (1, 20%Z); (3, 1%Z)].

(** The defaults of the class, with a minimum of half a request. *)
Definition default_adaptive : adaptive :=
  AdaptiveRateLimiter 10 (1 # 2) 100 (11 # 10) (1 # 2) 0.

End RateLimit.

(* ===================================================================== *)
(** * [utils/retry.py] *)
(* ===================================================================== *)

Module Retry.
Import RateLimit.
Local Open Scope Q_scope.

(** [random.uniform(a, b)] is [a + (b - a) * random()]; [u] is the draw of
    [random()]. *)
Definition uniform (a b u : Q) : Q := a + (b - a) * u.

(** [exponential_backoff(attempt, base_delay, max_delay, jitter)] *)
Definition exponential_backoff (attempt : nat) (base_delay max_delay : Q)
    (jitter : bool) (u : Q) : Q :=
  let delay := py_min (base_delay * inject_Z (2 ^ Z.of_nat attempt)) max_delay in
  let delay :=
    if jitter then
      let jitter_range := delay * (1 # 4) in
      delay + uniform (- jitter_range) jitter_range u
    else delay in
  py_max 0 delay.

(** The delay before the jitter. *)
Definition capped_delay (attempt : nat) (base_delay max_delay : Q) : Q :=
  py_min (base_delay * inject_Z (2 ^ Z.of_nat attempt)) max_delay.

(** The interval of the specification: [base * 2^attempt * (1 ± fraction)]
    with both ends clamped to [[0, max_delay * (1 + fraction)]]. *)
Definition clamp (lo hi x : Q) : Q := Qmax lo (Qmin x hi).

Definition spec_low (attempt : nat) (base_delay max_delay fraction : Q) : Q :=
  clamp 0 (max_delay * (1 + fraction))
        (base_delay * inject_Z (2 ^ Z.of_nat attempt) * (1 - fraction)).

Definition spec_high (attempt : nat) (base_delay max_delay fraction : Q) : Q :=
  clamp 0 (max_delay * (1 + fraction))
        (base_delay * inject_Z (2 ^ Z.of_nat attempt) * (1 + fraction)).

Section RetryAsync.

(** [E] are the exceptions of the wrapped function and [V] its values. *)
Context {E V : Type}.

Inductive outcome : Type :=
| Return (v : V)
| Raise (e : E)
| RaiseNone.   (* [raise None]: a [TypeError] *)

Inductive event : Type :=
| Called (attempt : Z)
| OnRetry (attempt : Z) (e : E) (delay : Q)
| Slept (delay : Q).

(** The arguments of the decorator. *)
Variable max_attempts : Z.
Variable base_delay max_delay : Q.
(** [isinstance(e, exceptions)] *)
Variable exceptions : E → bool.
(** Whether an [on_retry] callback is given. *)
Variable on_retry : bool.

(** The wrapped function answers by the number of the call, and the random
    generator by the attempt. *)
Variable func : Z → E + V.
Variable draw : Z → Q.

(** The [for attempt in range(max_attempts)] loop of [wrapper], over the
    attempts left; it returns the events in order and the outcome. *)
Fixpoint wrapper_loop (attempts : list Z) (last_exception : option E)
  : list event * outcome :=
  match attempts with
  | [] =>
      ([], match last_exception with Some e => Raise e | None => RaiseNone end)
  | attempt :: later =>
      match func attempt with
      | inr v => ([Called attempt], Return v)
      | inl e =>
          if exceptions e then
            if (attempt =? max_attempts - 1)%Z then ([Called attempt], Raise e)
            else
              let delay :=
                exponential_backoff (Z.to_nat attempt) base_delay max_delay true
                                    (draw attempt) in
              let '(events, out) := wrapper_loop later (Some e) in
              (Called attempt
                 :: (if on_retry then [OnRetry attempt e delay] else [])
                 ++ Slept delay :: events, out)
          else ([Called attempt], Raise e)
      end
  end.

(** [range(n)] *)
Definition range (n : Z) : list Z := map Z.of_nat (seq 0 (Z.to_nat n)).

Definition wrapper : list event * outcome :=
  wrapper_loop (range max_attempts) None.

Definition is_call (ev : event) : bool :=
  match ev with Called _ => true | _ => false end.

Definition invocations (events : list event) : nat :=
  length (List.filter is_call events).

End RetryAsync.

Arguments outcome : clear implicits.
Arguments event : clear implicits.

(** ** A sample operation *)

(** Two connection errors, then an answer. *)
Definition flaky (call : Z) : string + string :=
  if (call <? 2)%Z then inl "ConnectionError" else inr "page".

Definition always_down (call : Z) : string + string := inl "ConnectionError".

Definition is_connection_error (e : string) : bool :=
  String.eqb e "ConnectionError".

Definition half (attempt : Z) : Q := 1 # 2.

End Retry.

(* ===================================================================== *)
(** * [redis_description_workflow.py] *)
(* ===================================================================== *)

Module Workflow.
Import Py Storage.
Local Open Scope py_scope.

(** The answers of [scrape_farm_website] and of
    [generate_description_with_deepseek], by their [status]. *)
Inductive scraped : Type :=
| ScrapeSuccess (content_sections : list string)
| ScrapeError (error : string).

Inductive generated : Type :=
| GenSuccess (description : string)
| GenError (error : string).

(** What the batch calls outside the store. [generate] stands for
    [create_deepseek_prompt] followed by the API call, and raises when the
    prompt cannot be built; [save_to_csv] raises when the row cannot be
    written; [now] is [datetime.now().isoformat()] at the item of that
    position. *)
Record services : Type := mkServices {
  scrape_farm_website : json → scraped;
  generate : json → list string → result generated;
  save_to_csv : json → scraped → generated → result unit;
  now : nat → string
}.

Definition add_success (r : counts) : counts := mkCounts (S (success r)) (failed r).
Definition add_failed (r : counts) : counts := mkCounts (success r) (S (failed r)).

(** Step 3 of the [try] block; [except Exception] counts a failure. *)
Definition csv_step (env : services) (farm : json) (s : scraped) (g : generated)
    (r : counts) (st : store) : counts * store :=
  match save_to_csv env farm s g with
  | inr _ => (r, st)
  | inl _ => (add_failed r, st)
  end.

(** The [try] block of the loop for one farm, with its [except Exception]
    handler. *)
Definition try_block (env : services) (i : nat) (farm farm_id website : json)
    (r : counts) (st : store) : counts * store :=
  match scrape_farm_website env website with
  | ScrapeSuccess content_sections =>
      match generate env farm content_sections with
      | inr (GenSuccess description) =>
          let '(ok, st) :=
            update_farm_description farm_id description (now env i) st in
          let r := if ok then add_success r else add_failed r in
          csv_step env farm (ScrapeSuccess content_sections)
                   (GenSuccess description) r st
      | inr (GenError error) =>
          csv_step env farm (ScrapeSuccess content_sections) (GenError error)
                   (add_failed r) st
      | inl _ => (add_failed r, st)
      end
  | ScrapeError error =>
      csv_step env farm (ScrapeError error) (GenError "Scraping failed")
               (add_failed r) st
  end.

(** The body of the loop of [process_farm_batch]. The three reads of the
    farm stand before the [try] and their exception leaves the batch. *)
Definition process_one (env : services) (i : nat) (farm : json)
    (r : counts) (st : store) : result (counts * store) :=
  try! farm_name := get_default farm "name" (JStr "Unknown Farm") in
  try! farm_id := get_default farm "id" (JStr "Unknown") in
  try! contact := get_default farm "contact" (JObj []) in
  try! website := get_default contact "website" (JStr "") in
  ret (try_block env i farm farm_id website r st).

Fixpoint process_loop (env : services) (i : nat) (farms_batch : list json)
    (r : counts) (st : store) : result (counts * store) :=
  match farms_batch with
  | [] => ret (r, st)
  | farm :: rest =>
      try! rs := process_one env i farm r st in
      process_loop env (S i) rest (fst rs) (snd rs)
  end.

(** [process_farm_batch]; the export to JSON at its end reads the store and
    does not change it. *)
Definition process_farm_batch (env : services) (farms_batch : list json)
    (st : store) : result (counts * store) :=
  process_loop env 1 farms_batch (mkCounts 0 0) st.

(** ** The scenario of the specification *)




(** ** A sample batch *)

Definition farm_with_site (id site : string) : json :=
  JObj [("id", JStr id); ("name", JStr id);
        ("contact", JObj [("website", JStr site)])].

Definition five_farms : list json :=
  [farm_with_site "farm-1" "http://one.example";
   farm_with_site "farm-2" "http://two.example";
   farm_with_site "farm-3" "http://three.example";
   farm_with_site "farm-4" "http://four.example";
   farm_with_site "farm-5" "http://five.example"].

(** The third site never answers. *)
Definition third_down : services :=
  mkServices
    (λ website,
       match website with
       | JStr site =>
           if String.eqb site "http://three.example" then ScrapeError "timeout"
           else ScrapeSuccess ["About our farm shop"]
       | _ => ScrapeError "no url"
       end)
    (λ _ _, inr (GenSuccess "We grow and sell our own produce."))
    (λ _ _ _, inr tt)
    (λ _, "2025-01-01T00:00:00").

(** The five farms imported, all waiting for a description. *)
Definition five_pending : store :=
  snd (import_from_json (Some (JList five_farms)) empty_store).

End Workflow.

(* ===================================================================== *)
(** * [redis_storage.py]: saving one farm *)
(* ===================================================================== *)

Module StorageOps.
Import Py Storage.
Local Open Scope py_scope.

(** [save_farm]. The body under its [try] buffers the commands of
    [save_one] and sends them; the handler of [except Exception] reads
    [farm.get('name', 'Unknown')] for its message before it returns
    [False], and that read raises again when the farm is no dict. *)
Definition save_farm (farm : json) (st : store) : result (bool * store) :=
  match (try! r := save_one farm in
         match r with
         | None => ret (false, st)
         | Some cmds => try! st' := execute cmds st in ret (true, st')
         end) with
  | inr done => ret done
  | inl _ =>
      try! name := get_default farm "name" (JStr "Unknown") in
      ret (false, st)
  end.

(** One farm after the other, as long as no call raises. *)
Fixpoint save_each (farms : list json) (st : store) : result store :=
  match farms with
  | [] => ret st
  | farm :: rest =>
      try! r := save_farm farm st in
      save_each rest (snd r)
  end.

(** A record the batch cannot write: its reads raise, or its id is one the
    client refuses. *)
Definition unwritable (farm : json) : Prop :=
  (∃ e, save_one farm = inl e)
  ∨ (∃ cmds, save_one farm = inr (Some cmds) ∧ forallb packable cmds = false).

Definition no_farms : status := mkStatus 0 0 0 0.

(** ** Sample records *)

(** A record whose contact is [null]. *)
Definition bad_record : json := JObj [("id", JStr "farm-9"); ("contact", JNull)].

Definition good_record : json :=
  JObj [("id", JStr "farm-1"); ("description", JStr "text")].

Definition pending_record : json :=
  JObj [("id", JStr "farm-2"); ("name", JStr "Hill Farm");
        ("contact", JObj [("website", JStr "http://hill.example")])].

Definition pending_store : store :=
  snd (save_farms_batch [pending_record] empty_store).

End StorageOps.

(* ===================================================================== *)
(** * [farm_description_workflow.py] and [check_progress.py]: the farms
      as a list loaded from the JSON file *)
(* ===================================================================== *)

Module FileWorkflow.
Import Py Storage.
Local Open Scope py_scope.

(** [d[k] = v] on a dict: the value of an existing key is replaced in
    place, a new key is added at the end. *)
Fixpoint dict_set (k : string) (v : json) (fields : list (string * json))
  : list (string * json) :=
  match fields with
  | [] => [(k, v)]
  | (k', v') :: rest =>
      if String.eqb k k' then (k', v) :: rest else (k', v') :: dict_set k v rest
  end.

(** [farm.get('id') == farm_id] for a [farm_id] that is a [str]. *)
Definition id_is (farm_id : string) (id : option json) : bool :=
  match id with
  | Some (JStr s) => String.eqb s farm_id
  | _ => false
  end.

(** [update_farm_description(farms, farm_id, description)]: the first farm
    with that id is written and the loop returns [True]; [now] is
    [datetime.now().isoformat()]. *)
Fixpoint update_farm_description (farms : list json) (farm_id description now : string)
  : result (bool * list json) :=
  match farms with
  | [] => ret (false, [])
  | farm :: rest =>
      try! id := get farm "id" in
      if id_is farm_id id then
        match farm with
        | JObj fields =>
            ret (true,
                 JObj (dict_set "updatedAt" (JStr now)
                         (dict_set "description" (JStr description) fields)) :: rest)
        | _ => raise AttributeError
        end
      else
        try! r := update_farm_description rest farm_id description now in
        ret (fst r, farm :: snd r)
  end.

(** The test of [get_farms_needing_descriptions], the same in
    [check_progress]: the website is read first, then the description. *)
Definition needs_description (farm : json) : result bool :=
  try! contact := get_default farm "contact" (JObj []) in
  try! website := get contact "website" in
  try! has_description := get farm "description" in
  try! ok := usable_website (default JNull website) in
  ret (ok && negb (truthy (default JNull has_description))).

(** [get_farms_needing_descriptions(farms)] *)
Fixpoint get_farms_needing_descriptions (farms : list json) : result (list json) :=
  match farms with
  | [] => ret []
  | farm :: rest =>
      try! needs := needs_description farm in
      try! others := get_farms_needing_descriptions rest in
      ret (if needs then farm :: others else others)
  end.

(** [[f for f in farms if f.get('description')]] of [check_progress]. *)
Fixpoint farms_with_descriptions (farms : list json) : result (list json) :=
  match farms with
  | [] => ret []
  | farm :: rest =>
      try! description := get farm "description" in
      try! others := farms_with_descriptions rest in
      ret (if truthy (default JNull description) then farm :: others else others)
  end.

(** The first farm of the list with the id. *)
Fixpoint first_with_id (farm_id : string) (farms : list json) : option json :=
  match farms with
  | [] => None
  | farm :: rest =>
      match farm with
      | JObj fields =>
          if id_is farm_id (dict_lookup "id" fields) then Some farm
          else first_with_id farm_id rest
      | _ => first_with_id farm_id rest
      end
  end.

Definition two_farms : list json :=
  [JObj [("id", JStr "farm-1"); ("description", JStr "text")];
   JObj [("id", JStr "farm-2");
         ("contact", JObj [("website", JStr "http://hill.example")])]].

End FileWorkflow.

(* ===================================================================== *)
(** * [utils/rate_limiter.py]: runs of turns *)
(* ===================================================================== *)

Module RateLimitRuns.
Import Py RateLimit.
Local Open Scope py_scope.
Local Open Scope Q_scope.

Record served : Type := mkServed {
  granted : Z;        (* the tokens handed out *)
  sleeps : nat;       (* the turns that ended in a sleep *)
  final : limiter
}.

(** A run of turns of [acquire] on one limiter, in the order of the lock:
    the tokens it hands out, the turns that have to sleep, and the limiter
    it leaves. *)
Fixpoint serve (turns : list (Q * Z)) (l : limiter) : result served :=
  match turns with
  | [] => ret (mkServed 0 0 l)
  | (now, n) :: later =>
      try! r := attempt now n l in
      match r with
      | Granted l' =>
          try! s := serve later l' in
          ret (mkServed (n + granted s) (sleeps s) (final s))
      | Sleep _ l' =>
          try! s := serve later l' in
          ret (mkServed (granted s) (S (sleeps s)) (final s))
      end
  end.

(** The steady rate, [max_requests / time_window]. *)
Definition rate (l : limiter) : Q := inject_Z (max_requests l) / time_window l.

(** The tokens a run of turns asks for. *)
Definition requested (turns : list (Q * Z)) : Z :=
  foldr (λ t acc, (snd t + acc)%Z) 0%Z turns.

(** Four requests of one token in quick succession. *)
Definition single_requests : list (Q * Z) :=
  [(0, 1%Z); (0, 1%Z); (1 # 10, 1%Z); (1 # 5, 1%Z)].

End RateLimitRuns.

(* ===================================================================== *)
(** * [utils/retry.py]: [RetryContext] *)
(* ===================================================================== *)

Module RetryContext.
Import RateLimit Retry.
Local Open Scope Q_scope.

Record context : Type := mkContext {
  max_attempts : Z;
  base_delay : Q;
  max_delay : Q;
  attempt : nat
}.

(** [RetryContext.__init__] *)
Definition RetryContext (max_attempts : Z) (base_delay max_delay : Q) : context :=
  mkContext max_attempts base_delay max_delay 0.

Record exit : Type := mkExit {
  suppress : bool;          (* the value [__aexit__] returns *)
  slept : option Q;         (* the delay it sleeps for *)
  after : context
}.

(** [__aexit__]: [exc] is the exception that leaves the block, if any,
    [exceptions] is [issubclass(exc_type, self.exceptions)], and [u] the
    draw of the jitter. *)
Definition __aexit__ {E : Type} (exceptions : E → bool) (exc : option E) (u : Q)
    (self : context) : exit :=
  match exc with
  | Some e =>
      if exceptions e then
        let self := mkContext (max_attempts self) (base_delay self) (max_delay self)
                              (S (attempt self)) in
        if (Z.of_nat (attempt self) <? max_attempts self)%Z then
          let delay := exponential_backoff (attempt self - 1) (base_delay self)
                                           (max_delay self) true u in
          mkExit true (Some delay) self
        else mkExit false None self
      else mkExit false None self
  | None => mkExit false None self
  end.

(** The exits of one context from blocks that each fail with a retryable
    exception: the values returned. *)
Fixpoint failures {E : Type} (exceptions : E → bool) (excs : list E) (u : Q)
    (self : context) : list bool :=
  match excs with
  | [] => []
  | e :: later =>
      let x := __aexit__ exceptions (Some e) u self in
      suppress x :: failures exceptions later u (after x)
  end.

End RetryContext.

(* ===================================================================== *)
(** * [redis_description_workflow.py]: the batches of [main] *)
(* ===================================================================== *)

Module Batches.
Import Py.

Definition BATCH_SIZE : Z := 20.

(** [range(0, stop, step)] for a positive [step]. *)
Definition range_step (stop step : Z) : list Z :=
  map (λ k, Z.of_nat k * step)%Z (seq 0 (Z.to_nat ((stop + step - 1) / step))).

(** [l[i:i+n]] for [i >= 0]. *)
Definition slice {A} (l : list A) (i n : Z) : list A :=
  take (Z.to_nat n) (drop (Z.to_nat i) l).

(** The loop of [main] over the indices [range(0, stop, BATCH_SIZE)]: the
    batches handed to [process_farm_batch], with the [break] after the
    batch of number [max_batches]. *)
Fixpoint batch_loop {A} (farms : list A) (max_batches : Z) (indices : list Z)
  : list (list A) :=
  match indices with
  | [] => []
  | i :: later =>
      let batch := slice farms i BATCH_SIZE in
      let batch_num := (i / BATCH_SIZE + 1)%Z in
      batch :: (if (max_batches <=? batch_num)%Z then []
                else batch_loop farms max_batches later)
  end.

(** The batches of [main]; [max_batches] is [args.max_batches], [None]
    without the option. With no farm [main] returns before the loop. *)
Definition main_batches {A} (farms : list A) (max_batches : option Z) : list (list A) :=
  match farms with
  | [] => []
  | _ =>
      let len := Z.of_nat (length farms) in
      let total_batches := ((len + BATCH_SIZE - 1) / BATCH_SIZE)%Z in
      let max_batches :=
        match max_batches with
        | Some m => if (m =? 0)%Z then total_batches else m
        | None => total_batches
        end in
      batch_loop farms max_batches
        (range_step (Z.min len (max_batches * BATCH_SIZE)) BATCH_SIZE)
  end.

End Batches.

(* ===================================================================== *)
(** * [utils/retry.py]: the events of a run *)
(* ===================================================================== *)

Module RetryRuns.
Import RateLimit Retry RetryContext.
Local Open Scope Q_scope.

(** The time the wrapper of [retry_async] sleeps in all. *)
Fixpoint total_sleep {E : Type} (events : list (event E)) : Q :=
  match events with
  | [] => 0
  | Slept delay :: later => delay + total_sleep later
  | _ :: later => total_sleep later
  end.

Definition is_sleep {E : Type} (ev : event E) : bool :=
  match ev with Slept _ => true | _ => false end.

Definition is_callback {E : Type} (ev : event E) : bool :=
  match ev with OnRetry _ _ _ => true | _ => false end.

(** The sleeps and the calls of [on_retry] in the events of a run. *)
Definition sleeps {E : Type} (events : list (event E)) : nat :=
  length (List.filter is_sleep events).

Definition callbacks {E : Type} (events : list (event E)) : nat :=
  length (List.filter is_callback events).

(** Connection errors until the call of number [k], which answers. *)
Definition answers_at (k : Z) (call : Z) : string + string :=
  if (call <? k)%Z then inl "ConnectionError" else inr "page".

End RetryRuns.

(* ===================================================================== *)
(** * [redis_description_workflow.py]: the reads and the effect of a batch *)
(* ===================================================================== *)

Module WorkflowOps.
Import Py Storage Workflow.
Local Open Scope py_scope.

(** The member of the sets that [process_farm_batch] names for a farm:
    its id, or ['Unknown'] for a farm without one. *)
Definition batch_id (farm : json) : option string :=
  match get_default farm "id" (JStr "Unknown") with
  | inr farm_id => redis_encode farm_id
  | inl _ => None
  end.

Definition batch_ids (farms_batch : list json) : gset string :=
  list_to_set (omap batch_id farms_batch).

(** The three reads before the [try] raise nothing: the farm is a dict
    whose contact, when it has one, is a dict. *)
Definition readable (farm : json) : bool :=
  match farm with
  | JObj fields =>
      match dict_lookup "contact" fields with
      | None | Some (JObj _) => true
      | Some _ => false
      end
  | _ => false
  end.

(** What [n] passes of the loop do to the counts and to the sets. *)
Definition batch_effect (ids : gset string) (n : nat) (r : counts) (st : store)
    (r1 : counts) (st1 : store) : Prop :=
  ∃ moved : gset string,
    farms_processed st1 = moved ∪ farms_processed st
    ∧ farms_needs_description st1 = farms_needs_description st ∖ moved
    ∧ farms_all st1 = farms_all st
    ∧ farms_failed st1 = farms_failed st
    ∧ farms_priority st1 = farms_priority st
    ∧ moved ⊆ ids
    ∧ (size moved <= success r1 - success r)%nat
    ∧ (success r <= success r1 <= success r + n)%nat
    ∧ (failed r <= failed r1)%nat
    ∧ (success r + failed r + n <= success r1 + failed r1
       <= success r + failed r + 2 * n)%nat.

(** The CSV file cannot be written. *)
Definition csv_down : services :=
  mkServices (scrape_farm_website third_down) (generate third_down)
             (λ _ _ _, inl TypeError) (now third_down).

Definition one_farm : list json := [farm_with_site "farm-1" "http://one.example"].

Definition null_contact : json := JObj [("id", JStr "farm-6"); ("contact", JNull)].

End WorkflowOps.

(* ===================================================================== *)
(** * [check_progress.py]: the statistics *)
(* ===================================================================== *)

Module Progress.
Import Py Storage RateLimit FileWorkflow.
Local Open Scope py_scope.

(** The statistics of [check_progress] (and of [show_dashboard]): the
    number of farms, of farms with a description and of farms still
    waiting, and the coverage in percent; [/] on two [int]s is the true
    division. *)
Definition statistics (farms : list json) : result (nat * nat * nat * Q) :=
  try! farms_with_descriptions := farms_with_descriptions farms in
  try! farms_needing_descriptions := get_farms_needing_descriptions farms in
  let total_farms := length farms in
  let farms_with_desc := length farms_with_descriptions in
  let farms_needing_desc := length farms_needing_descriptions in
  try! ratio := py_div (inject_Z (Z.of_nat farms_with_desc))
                       (inject_Z (Z.of_nat total_farms)) in
  let coverage_percent := (ratio * 100)%Q in
  ret (total_farms, farms_with_desc, farms_needing_desc, coverage_percent).

End Progress.

(* ===================================================================== *)
(** * Properties of the store *)
(* ===================================================================== *)

Module StorageFacts.
Import Py Storage.
Local Open Scope py_scope.

(** The pattern [farms:*] of [clear_all_data] matches the five set keys
    and no hash key. *)
Lemma farms_pattern_sets (k : set_key) :
  String.prefix "farms:" (key_name k) = true.
Proof. by destruct k. Qed.

Lemma farms_pattern_hashes (farm_id : json) :
  String.prefix "farms:" (farm_key farm_id) = false.
Proof. unfold farm_key. by destruct (redis_encode farm_id). Qed.

Lemma tracking_set_cases farm k :
  tracking_set farm = inr (Some k) → k = FARMS_PROCESSED ∨ k = FARMS_NEEDS_DESCRIPTION.
Proof.
  unfold tracking_set, bind, ret.
  destruct (get farm "description") as [e|d]; [discriminate|].
  destruct (truthy (default JNull d)); [intros [= <-]; by left|].
  destruct (get_default farm "contact" (JObj [])) as [e|c]; [discriminate|].
  destruct (get_default c "website" (JStr "")) as [e|w]; [discriminate|].
  destruct (usable_website w) as [e|[]]; [discriminate| |discriminate].
  intros [= <-]; by right.
Qed.

Lemma save_one_skip farm : save_one farm = inr None → member_of farm = None.
Proof.
  unfold save_one, member_of, bind, ret, get.
  destruct farm as [| | | | |fields]; try discriminate.
  destruct (dict_lookup "id" fields) as [v|]; simpl.
  - destruct (truthy v); simpl; [|done].
    destruct (tracking_set (JObj fields)); discriminate.
  - done.
Qed.

(** What the commands of one record do to the sets. *)
Lemma save_one_effect farm cmds st :
  save_one farm = inr (Some cmds) →
  let st' := fold_left apply_command cmds st in
  farms_failed st' = farms_failed st ∧
  match member_of farm with
  | None =>
      farms_all st' = farms_all st ∧
      farms_processed st' = farms_processed st ∧
      farms_needs_description st' = farms_needs_description st
  | Some m =>
      farms_all st' = {[m]} ∪ farms_all st ∧
      ((tracking_set farm = inr (Some FARMS_PROCESSED) ∧
        farms_processed st' = {[m]} ∪ farms_processed st ∧
        farms_needs_description st' = farms_needs_description st) ∨
       (tracking_set farm = inr (Some FARMS_NEEDS_DESCRIPTION) ∧
        farms_processed st' = farms_processed st ∧
        farms_needs_description st' = {[m]} ∪ farms_needs_description st) ∨
       (tracking_set farm = inr None ∧
        farms_processed st' = farms_processed st ∧
        farms_needs_description st' = farms_needs_description st))
  end.
Proof.
  unfold save_one, member_of, bind, ret, get.
  destruct farm as [| | | | |fields]; try discriminate.
  destruct (dict_lookup "id" fields) as [v|]; simpl; [|discriminate].
  destruct (truthy v); simpl; [|discriminate].
  destruct (tracking_set (JObj fields)) as [e|tr] eqn:Htr; [discriminate|].
  intros [= <-].
  destruct tr as [k|].
  - destruct (tracking_set_cases _ _ Htr) as [-> | ->];
      simpl; destruct (redis_encode v) as [m|]; simpl; eauto 10.
  - simpl; destruct (redis_encode v) as [m|]; simpl; eauto 10.
Qed.

(** Induction over the loop: [R] relates the records still to come to the
    store the buffer so far produces. *)
Lemma save_loop_fold (R : list json → store → Prop) :
  (∀ farm rest st cmds,
      save_one farm = inr (Some cmds) →
      R (farm :: rest) st → R rest (fold_left apply_command cmds st)) →
  (∀ farm rest st, save_one farm = inr None → R (farm :: rest) st → R rest st) →
  ∀ farms buffer skipped cmds n st0,
    save_loop farms buffer skipped = inr (cmds, n) →
    R farms (fold_left apply_command buffer st0) →
    R [] (fold_left apply_command cmds st0).
Proof.
  intros Hsome Hnone farms.
  induction farms as [|farm rest IH]; intros buffer skipped cmds n st0; simpl.
  - intros [= <- <-]. done.
  - unfold bind. destruct (save_one farm) as [e|[one|]] eqn:Hone; [discriminate| |].
    + intros Hloop HR. eapply IH; [exact Hloop|].
      rewrite fold_left_app. by eapply Hsome.
    + intros Hloop HR. eapply IH; [exact Hloop|]. by eapply Hnone.
Qed.

Lemma save_one_basic farm cmds st :
  save_one farm = inr (Some cmds) → basic st → basic (fold_left apply_command cmds st).
Proof.
  intros Hone (HF & HP & HN).
  destruct (save_one_effect farm cmds st Hone) as [HF' H].
  unfold basic. rewrite HF'. split; [done|].
  destruct (member_of farm) as [m|].
  - destruct H as [-> [(_ & -> & ->)|[(_ & -> & ->)|(_ & -> & ->)]]]; set_solver.
  - destruct H as (-> & -> & ->). done.
Qed.

Lemma save_loop_basic farms cmds n st :
  save_loop farms [] 0 = inr (cmds, n) → basic st → basic (fold_left apply_command cmds st).
Proof.
  intros Hloop Hb.
  apply (save_loop_fold (λ _ s, basic s)) with (farms := farms) (buffer := [])
    (skipped := 0) (n := n); try done.
  intros farm _ s one Hone. by apply (save_one_basic farm).
Qed.

Lemma save_loop_separate farms cmds n st :
  save_loop farms [] 0 = inr (cmds, n) →
  separate farms st →
  farms_processed (fold_left apply_command cmds st)
    ## farms_needs_description (fold_left apply_command cmds st).
Proof.
  intros Hloop Hsep.
  apply (save_loop_fold separate) with (farms := farms) (buffer := [])
    (skipped := 0) (n := n) (cmds := cmds) (st0 := st); try done.
  - intros farm rest s one Hone (Hb & Hdisj & Hnd & Hfresh).
    pose proof (save_one_basic _ _ _ Hone Hb) as Hb'.
    destruct (save_one_effect farm one s Hone) as [HF' H].
    destruct Hb as (HF & HP & HN).
    unfold separate. split; [done|]. simpl in Hnd, Hfresh.
    destruct (member_of farm) as [m|].
    + apply NoDup_cons in Hnd as [Hm Hnd].
      assert (m ∉ farms_all s) by (apply Hfresh; set_solver).
      destruct H as [HA [(_ & HP' & HN')|[(_ & HP' & HN')|(_ & HP' & HN')]]];
        rewrite HA, HP', HN'; (split; [set_solver|]); (split; [done|]);
        intros m' Hm'; specialize (Hfresh m'); set_solver.
    + destruct H as (-> & -> & ->). done.
  - intros farm rest s Hone (Hb & Hdisj & Hnd & Hfresh).
    apply save_one_skip in Hone. simpl in Hnd, Hfresh. rewrite Hone in Hnd, Hfresh.
    done.
Qed.

Lemma save_loop_covered farms cmds n st :
  save_loop farms [] 0 = inr (cmds, n) →
  covered farms st →
  farms_all (fold_left apply_command cmds st)
    ⊆ farms_processed (fold_left apply_command cmds st)
      ∪ farms_needs_description (fold_left apply_command cmds st).
Proof.
  intros Hloop Hcov.
  apply (save_loop_fold covered) with (farms := farms) (buffer := [])
    (skipped := 0) (n := n) (cmds := cmds) (st0 := st); try done.
  - intros farm rest s one Hone (Htr & Hsub).
    apply Forall_cons in Htr as [Hfarm Htr].
    split; [done|].
    destruct (save_one_effect farm one s Hone) as [_ H].
    destruct Hfarm as [Hnone | [k Hk]].
    + rewrite Hnone in H. destruct H as (-> & -> & ->). done.
    + destruct (member_of farm) as [m|].
      * destruct H as [-> [(_ & -> & ->)|[(_ & -> & ->)|(Hno & _)]]];
          [set_solver|set_solver|congruence].
      * destruct H as (-> & -> & ->). done.
  - intros farm rest s _ (Htr & Hsub). apply Forall_cons in Htr as [_ Htr]. done.
Qed.

Lemma partition_of_sets (st : store) :
  farms_failed st = ∅ →
  farms_processed st ## farms_needs_description st →
  farms_processed st ∪ farms_needs_description st = farms_all st →
  partition st.
Proof.
  intros HF Hdisj Hall. unfold partition. rewrite HF, <- Hall.
  split; [|split; [|split; [|split]]]; [set_solver..|].
  rewrite size_empty, size_union by done. lia.
Qed.

Lemma cleared_basic st : basic (clear_all_data st).
Proof. unfold basic. simpl. set_solver. Qed.

(** The store after an import of the records [items]: cleared when the
    batch raises, otherwise cleared and then written by the buffer. *)
Lemma import_cases items st :
  let st' := snd (import_from_json (Some (JList items)) st) in
  st' = clear_all_data st
  ∨ ∃ cmds n, save_loop items [] 0 = inr (cmds, n)
              ∧ st' = fold_left apply_command cmds (clear_all_data st).
Proof.
  simpl. unfold save_farms_batch, bind, ret.
  destruct (save_loop items [] 0) as [e|[cmds n]] eqn:Hloop; [by left|].
  simpl. unfold execute. destruct (forallb packable cmds); [|by left].
  right. by exists cmds, n.
Qed.

(** C1, as the code has it. After a snapshot import whose records have
    distinct ids, no id is marked failed, the processed and the
    needs-description sets hold known ids only, the three status sets are
    pairwise disjoint, and their sizes add up to at most the number of
    known ids. The partition holds when every record with an id has a
    description or a website that is no social page. *)
Theorem import_index_sets (items : list json) (st : store) :
  distinct_ids items →
  let st' := snd (import_from_json (Some (JList items)) st) in
  farms_failed st' = ∅
  ∧ farms_processed st' ⊆ farms_all st'
  ∧ farms_needs_description st' ⊆ farms_all st'
  ∧ farms_needs_description st' ## farms_processed st'
  ∧ farms_needs_description st' ## farms_failed st'
  ∧ farms_processed st' ## farms_failed st'
  ∧ size (farms_needs_description st') + size (farms_processed st')
      + size (farms_failed st') ≤ size (farms_all st')
  ∧ (Forall tracked items → partition st').
Proof.
  intros Hdistinct st'.
  assert (basic st' ∧ farms_processed st' ## farms_needs_description st'
          ∧ (Forall tracked items →
             farms_all st' ⊆ farms_processed st' ∪ farms_needs_description st'))
    as ((HF & HP & HN) & Hdisj & Hcov).
  { destruct (import_cases items st) as [Hst | (cmds & n & Hloop & Hst)];
      fold st' in Hst; rewrite Hst.
    - split; [apply cleared_basic|]. simpl. set_solver.
    - split; [by eapply save_loop_basic, cleared_basic|].
      split.
      + eapply save_loop_separate; [exact Hloop|].
        split; [apply cleared_basic|]. simpl.
        split; [set_solver|]. split; [exact Hdistinct|]. set_solver.
      + intros Htracked. eapply save_loop_covered; [exact Hloop|].
        split; [done|]. simpl. set_solver. }
  split; [done|]. split; [done|]. split; [done|].
  split; [done|]. split; [set_solver|]. split; [set_solver|].
  split.
  - rewrite HF, size_empty, Nat.add_0_r, (Nat.add_comm (size _)), <- size_union by done.
    apply subseteq_size. set_solver.
  - intros Htracked. apply partition_of_sets; [done..|].
    specialize (Hcov Htracked). set_solver.
Qed.

Lemma import_index_sets_sample :
  distinct_ids mixed_farms
  ∧ farms_failed (snd (import_from_json (Some (JList mixed_farms)) empty_store)) = ∅
  ∧ farms_needs_description (snd (import_from_json (Some (JList mixed_farms)) empty_store))
    ## farms_processed (snd (import_from_json (Some (JList mixed_farms)) empty_store)).
Proof.
  assert (distinct_ids mixed_farms) as H by compute_done.
  split; [exact H|].
  destruct (import_index_sets mixed_farms empty_store H) as (HF & _ & _ & HD & _).
  split; [exact HF|exact HD].
Defined.

(** The record of the claim, with neither a description nor a usable
    website, is known and has no status. *)
Lemma import_orphan_not_partition :
  ¬ partition (snd (import_from_json (Some orphan_snapshot) empty_store)).
Proof.
  intros (_ & _ & _ & _ & Hsize). vm_compute in Hsize. discriminate.
Qed.

(** Two records under one id can leave the id in two status sets. *)
Example import_twins_overlap :
  let st := snd (import_from_json (Some twin_snapshot) empty_store) in
  farms_processed st = {["farm-1"]} ∧ farms_needs_description st = {["farm-1"]}.
Proof. split; compute_done. Qed.

Lemma apply_command_same_sets c s1 s2 :
  same_sets s1 s2 → same_sets (apply_command s1 c) (apply_command s2 c).
Proof.
  intros H k'.
  pose proof (H FARMS_ALL). pose proof (H FARMS_PROCESSED). pose proof (H FARMS_FAILED).
  pose proof (H FARMS_NEEDS_DESCRIPTION). pose proof (H FARMS_PRIORITY).
  destruct c as [key mapping|key field value|k member|k member]; simpl in *;
    try destruct (redis_encode member); destruct k'; try destruct k; simpl in *; congruence.
Qed.

Lemma fold_same_sets cmds : ∀ s1 s2,
  same_sets s1 s2 →
  same_sets (fold_left apply_command cmds s1) (fold_left apply_command cmds s2).
Proof.
  induction cmds as [|c cmds IH]; intros s1 s2 H; simpl; [done|].
  by apply IH, apply_command_same_sets.
Qed.

Lemma save_farms_batch_same_sets items s1 s2 :
  same_sets s1 s2 →
  same_sets (snd (save_farms_batch items s1)) (snd (save_farms_batch items s2)).
Proof.
  intros H. unfold save_farms_batch, bind, ret, execute.
  destruct (save_loop items [] 0) as [e|[cmds n]]; [done|]. simpl.
  destruct (forallb packable cmds); [|done]. simpl. by apply fold_same_sets.
Qed.

Lemma status_same_sets s1 s2 :
  same_sets s1 s2 → get_pipeline_status s1 = get_pipeline_status s2.
Proof.
  intros H. unfold get_pipeline_status, scard. by rewrite !H.
Qed.

(** C9. Importing the same file twice in a row leaves the counts of
    [get_pipeline_status] (total, processed, failed, needs description)
    after the second import as they were after the first; a missing or
    unreadable file changes nothing either time. *)
Theorem import_twice_same_status (file : option json) (st : store) :
  let once := snd (import_from_json file st) in
  let twice := snd (import_from_json file once) in
  get_pipeline_status twice = get_pipeline_status once.
Proof.
  destruct file as [farms|]; [|done]. simpl.
  destruct (iter farms) as [e|items]; [done|].
  apply status_same_sets, save_farms_batch_same_sets.
  intros k. by destruct k.
Qed.

(** C2, as the code has it. [update_farm_description] is an unconditional
    move: for every id, whatever the status of the item, it returns [True],
    writes the description and the time of the update, adds the id to the
    processed set and removes it from the needs-description set, in one
    transaction; the set of known ids and the failed set are untouched. *)
Theorem update_is_unconditional (farm_id description now : string) (st : store) :
  let r := update_farm_description (JStr farm_id) description now st in
  let st' := snd r in
  fst r = true
  ∧ hash_at (farm_key (JStr farm_id)) st' !! "description" = Some (Text description)
  ∧ hash_at (farm_key (JStr farm_id)) st' !! "updatedAt" = Some (Text now)
  ∧ farms_processed st' = {[farm_id]} ∪ farms_processed st
  ∧ farms_needs_description st' = farms_needs_description st ∖ {[farm_id]}
  ∧ farms_all st' = farms_all st
  ∧ farms_failed st' = farms_failed st.
Proof.
  simpl. split; [done|]. unfold hash_at. simpl.
  rewrite !lookup_insert_eq. simpl.
  rewrite lookup_insert_ne by done. rewrite !lookup_insert_eq. done.
Qed.

(** An item that is already processed is written again: the call reports
    success and the stored description changes. *)
Lemma update_overwrites_processed :
  let r := update_farm_description (JStr "farm-1") "new text" "2025-01-01T00:00:00"
                                   described_store in
  "farm-1" ∈ farms_processed described_store
  ∧ ("farm-1" ∉ farms_needs_description described_store)
  ∧ hash_at "farm:farm-1" described_store !! "description" = Some (Text "old text")
  ∧ fst r = true
  ∧ hash_at "farm:farm-1" (snd r) !! "description" = Some (Text "new text").
Proof.
  split; [compute_done|]. split; [compute_done|]. by vm_compute.
Qed.

(** An unknown id is marked processed without becoming known. *)
Example update_unknown_id :
  let r := update_farm_description (JStr "ghost") "text" "2025-01-01T00:00:00"
                                   empty_store in
  fst r = true
  ∧ farms_processed (snd r) = {["ghost"]}
  ∧ farms_all (snd r) = ∅.
Proof. split; [done|]. split; compute_done. Qed.

(** The index sets after a description is stored. *)
Lemma update_sets (farm_id description now : string) (st : store) :
  let st' := snd (update_farm_description (JStr farm_id) description now st) in
  farms_processed st' = {[farm_id]} ∪ farms_processed st
  ∧ farms_needs_description st' = farms_needs_description st ∖ {[farm_id]}
  ∧ farms_all st' = farms_all st
  ∧ farms_failed st' = farms_failed st.
Proof. done. Qed.

End StorageFacts.

(* ===================================================================== *)
(** * Properties of the rate limiters *)
(* ===================================================================== *)

Module RateLimitFacts.
Import Py RateLimit.
Local Open Scope py_scope.
Local Open Scope Q_scope.

Lemma Qltb_lt a b : Qltb a b = true ↔ a < b.
Proof.
  unfold Qltb. rewrite negb_true_iff. split.
  - intros H. apply Qnot_le_lt. intros Hle. apply Qle_bool_iff in Hle. congruence.
  - intros H. destruct (Qle_bool b a) eqn:E; [|done].
    apply Qle_bool_iff in E. lra.
Qed.

Lemma Qltb_ge a b : Qltb a b = false ↔ b <= a.
Proof.
  unfold Qltb. rewrite negb_false_iff. apply Qle_bool_iff.
Qed.

Lemma py_min_cases a b :
  (b < a ∧ py_min a b = b) ∨ (a <= b ∧ py_min a b = a).
Proof.
  unfold py_min. destruct (Qltb b a) eqn:E.
  - left. by apply Qltb_lt in E.
  - right. by apply Qltb_ge in E.
Qed.

Lemma py_max_cases a b :
  (a < b ∧ py_max a b = b) ∨ (b <= a ∧ py_max a b = a).
Proof.
  unfold py_max. destruct (Qltb a b) eqn:E.
  - left. by apply Qltb_lt in E.
  - right. by apply Qltb_ge in E.
Qed.

Lemma py_div_defined a b : ¬ b == 0 → py_div a b = inr (a / b).
Proof.
  intros H. unfold py_div. destruct (Qeq_bool b 0) eqn:E; [|done].
  apply Qeq_bool_iff in E. contradiction.
Qed.

Lemma py_div_zero a b : b == 0 → py_div a b = inl ZeroDivisionError.
Proof.
  intros H. unfold py_div. apply Qeq_bool_iff in H. by rewrite H.
Qed.

Lemma inject_Z_pos z : (0 < z)%Z → 0 < inject_Z z.
Proof. intros H. change 0 with (inject_Z 0). by rewrite <- Zlt_Qlt. Qed.

Lemma inject_Z_nonzero z : z ≠ 0%Z → ¬ inject_Z z == 0.
Proof.
  intros H E. apply H. unfold Qeq in E. simpl in E. lia.
Qed.

Lemma div_nonneg a b : 0 <= a → 0 < b → 0 <= a / b.
Proof.
  intros Ha Hb. apply Qle_shift_div_l; [done|]. lra.
Qed.

(** The refill keeps the configuration and stamps the reading. *)
Lemma refill_config now l l1 :
  refill now l = inr l1 →
  max_requests l1 = max_requests l ∧ time_window l1 = time_window l
  ∧ burst_size l1 = burst_size l ∧ last_update l1 = now
  ∧ tokens l1 <= inject_Z (burst_size l).
Proof.
  unfold refill, bind, ret. destruct (py_div _ _) as [e|rate]; [done|].
  intros [= <-]. simpl. repeat split.
  destruct (py_min_cases (inject_Z (burst_size l)) (tokens l + (now - last_update l) * rate))
    as [[H ->]|[H ->]]; lra.
Qed.

Lemma refill_valid now l :
  valid_config l → last_update l <= now → within_bounds l →
  ∃ l1, refill now l = inr l1 ∧ valid_config l1 ∧ within_bounds l1
        ∧ last_update l1 = now.
Proof.
  intros (Hmax & Hwin & Hburst) Hnow [Hlo Hhi].
  unfold refill, bind, ret. rewrite py_div_defined by lra.
  eexists. split; [done|]. unfold valid_config, within_bounds. simpl.
  split; [done|]. split; [|done].
  assert (0 <= inject_Z (max_requests l) / time_window l) as Hrate.
  { apply div_nonneg; [|done]. apply Qlt_le_weak, inject_Z_pos. done. }
  assert (0 <= (now - last_update l) * (inject_Z (max_requests l) / time_window l)) as Hre.
  { apply Qmult_le_0_compat; [lra|done]. }
  assert (0 < inject_Z (burst_size l)) by (apply inject_Z_pos; lia).
  destruct (py_min_cases (inject_Z (burst_size l))
              (tokens l + (now - last_update l) * (inject_Z (max_requests l) / time_window l)))
    as [[H' ->]|[H' ->]]; lra.
Qed.


(** A limiter as [__init__] leaves it is full. *)
Lemma RateLimiter_valid (mr : Z) (tw : Q) (burst : option Z) (now : Q) :
  (0 < mr)%Z → 0 < tw →
  match burst with Some b => (mr <= b)%Z | None => True end →
  valid_config (RateLimiter mr tw burst now)
  ∧ within_bounds (RateLimiter mr tw burst now)
  ∧ last_update (RateLimiter mr tw burst now) = now.
Proof.
  intros Hmr Htw Hb. unfold valid_config, within_bounds, RateLimiter. simpl.
  destruct burst as [b|].
  - destruct (Z.eqb_spec b 0); [lia|].
    assert (0 < inject_Z b) by (apply inject_Z_pos; lia).
    repeat split; try done; lra.
  - assert (0 < inject_Z mr) by (by apply inject_Z_pos).
    repeat split; try done; try lia; lra.
Qed.

Lemma attempt_valid now n l :
  valid_config l → last_update l <= now → within_bounds l → (0 < n)%Z →
  ∃ l1 r, refill now l = inr l1 ∧ within_bounds l1 ∧ attempt now n l = inr r
    ∧ match r with
      | Granted l2 =>
          valid_config l2 ∧ within_bounds l2 ∧ last_update l2 = now
          ∧ burst_size l2 = burst_size l
      | Sleep _ l2 =>
          l2 = l1 ∧ valid_config l2 ∧ last_update l2 = now
          ∧ burst_size l2 = burst_size l
      end.
Proof.
  intros Hv Hnow Hb Hn.
  destruct (refill_valid now l Hv Hnow Hb) as (l1 & Hre & Hv1 & Hb1 & Ht1).
  destruct (refill_config _ _ _ Hre) as (Hmr & Htw & Hbs & _ & _).
  exists l1. unfold attempt, bind, ret. rewrite Hre.
  destruct (Qle_bool (inject_Z n) (tokens l1)) eqn:Hle.
  - eexists. split; [done|]. split; [done|]. split; [done|].
    apply Qle_bool_iff in Hle. destruct Hb1 as [Hlo Hhi].
    destruct Hv1 as (? & ? & ?).
    unfold valid_config, within_bounds. simpl.
    assert (0 < inject_Z n) by (by apply inject_Z_pos).
    repeat split; try done; lra.
  - rewrite py_div_defined.
    + eexists. split; [done|]. split; [done|]. split; [done|]. done.
    + apply inject_Z_nonzero. destruct Hv1 as (? & _). lia.
Qed.

(** C4. For a limiter with positive [max_requests] and [time_window] and
    [burst_size >= max_requests], whose tokens are within
    [[0, burst_size]], and every run of turns with requests
    [0 < n <= burst_size] at clock readings that never go back: no turn
    raises, and the tokens are within [[0, burst_size]] after every
    refill and after every decrement. *)
Theorem tokens_within_bounds (turns : list (Q * Z)) : ∀ l : limiter,
  valid_config l →
  within_bounds l →
  nondecreasing (last_update l) (map fst turns) →
  Forall (λ t, (0 < snd t)%Z ∧ (snd t <= burst_size l)%Z) turns →
  ∃ ls, observed turns l = inr ls
        ∧ (length turns <= length ls)%nat
        ∧ Forall within_bounds ls.
Proof.
  induction turns as [|[now n] later IH]; intros l Hv Hb Hclock Hreq.
  - exists []. simpl. by repeat split.
  - simpl in Hclock. destruct Hclock as [Hnow Hlater].
    apply Forall_cons in Hreq as [[Hn _] Hreq]. simpl in Hn.
    destruct (attempt_valid now n l Hv Hnow Hb Hn) as (l1 & r & Hre & Hb1 & Hat & Hr).
    simpl. unfold bind, ret. rewrite Hre, Hat.
    destruct r as [l2|w l2].
    + destruct Hr as (Hv2 & Hb2 & Ht2 & Hbs).
      destruct (IH l2 Hv2 Hb2) as (ls & -> & Hlen & Hall).
      * by rewrite Ht2.
      * by rewrite Hbs.
      * exists (l1 :: l2 :: ls). split; [done|]. split; [simpl; lia|].
        by rewrite !Forall_cons.
    + destruct Hr as (-> & Hv2 & Ht2 & Hbs).
      destruct (IH l1 Hv2 Hb1) as (ls & -> & Hlen & Hall).
      * by rewrite Ht2.
      * by rewrite Hbs.
      * exists (l1 :: ls). split; [done|]. split; [simpl; lia|].
        by rewrite Forall_cons.
Qed.

(** A call of [acquire] that returns has taken the turns of a prefix of
    its clock, and returns the limiter of the last of them. *)
Lemma acquire_observed (clock : list Q) : ∀ (n : Z) (l l' : limiter),
  acquire clock n l = inr (Returned l') →
  ∃ used ls, used `prefix_of` clock
             ∧ observed (map (λ now, (now, n)) used) l = inr ls
             ∧ last ls = Some l'.
Proof.
  induction clock as [|now later IH]; intros n l l'; simpl; [discriminate|].
  unfold bind, ret.
  destruct (attempt now n l) as [e|r] eqn:Hat; [discriminate|].
  assert (∃ refilled, refill now l = inr refilled) as [refilled Hre].
  { unfold attempt, bind in Hat. destruct (refill now l); [discriminate|by eexists]. }
  destruct r as [l1|w l1].
  - intros [= <-]. exists [now], [refilled; l1]. split; [by exists later|].
    simpl. unfold bind, ret. by rewrite Hre, Hat.
  - intros Hlater. destruct (IH n l1 l' Hlater) as (used & ls & Hpre & Hobs & Hlast).
    exists (now :: used), (refilled :: ls). split; [by apply prefix_cons|].
    simpl. unfold bind, ret. rewrite Hre, Hat, Hobs. split; [done|].
    destruct ls; [discriminate|done].
Qed.

Lemma tokens_within_bounds_sample :
  valid_config deepseek_limiter
  ∧ within_bounds deepseek_limiter
  ∧ nondecreasing (last_update deepseek_limiter) (map fst busy_turns)
  ∧ ∃ ls, observed busy_turns deepseek_limiter = inr ls ∧ Forall within_bounds ls.
Proof.
  assert (valid_config deepseek_limiter) as Hv by (repeat split; by vm_compute).
  assert (within_bounds deepseek_limiter) as Hb by (split; by vm_compute).
  assert (nondecreasing (last_update deepseek_limiter) (map fst busy_turns)) as Hc
    by (repeat split; by vm_compute).
  split; [exact Hv|]. split; [exact Hb|]. split; [exact Hc|].
  destruct (tokens_within_bounds busy_turns deepseek_limiter Hv Hb Hc)
    as (ls & Hobs & _ & Hall).
  { repeat (apply Forall_cons; split; [split; by vm_compute|]). by apply Forall_nil. }
  exists ls. split; [exact Hobs|exact Hall].
Defined.

(** Beyond the burst size the test of line 81 fails at every turn. *)
Lemma attempt_over_burst now n l :
  (burst_size l < n)%Z → ¬ time_window l == 0 → max_requests l ≠ 0%Z →
  ∃ w l1, attempt now n l = inr (Sleep w l1)
          ∧ burst_size l1 = burst_size l ∧ time_window l1 = time_window l
          ∧ max_requests l1 = max_requests l.
Proof.
  intros Hn Htw Hmr. unfold attempt, bind, ret.
  destruct (refill now l) as [e|l1] eqn:Hre.
  { unfold refill, bind in Hre. by rewrite py_div_defined in Hre. }
  destruct (refill_config _ _ _ Hre) as (Hmr1 & Htw1 & Hbs1 & _ & Hle).
  destruct (Qle_bool (inject_Z n) (tokens l1)) eqn:E.
  - apply Qle_bool_iff in E.
    assert (inject_Z (burst_size l) < inject_Z n) by (by rewrite <- Zlt_Qlt).
    lra.
  - rewrite py_div_defined by (apply inject_Z_nonzero; congruence).
    by eexists _, _.
Qed.

Lemma attempt_defined now n l :
  ¬ time_window l == 0 → max_requests l ≠ 0%Z →
  ∃ r, attempt now n l = inr r
       ∧ match r with
         | Granted l1 | Sleep _ l1 =>
             time_window l1 = time_window l ∧ max_requests l1 = max_requests l
             ∧ burst_size l1 = burst_size l
         end.
Proof.
  intros Htw Hmr. unfold attempt, bind, ret.
  destruct (refill now l) as [e|l1] eqn:Hre.
  { unfold refill, bind in Hre. by rewrite py_div_defined in Hre. }
  destruct (refill_config _ _ _ Hre) as (Hmr1 & Htw1 & Hbs1 & _ & Hle).
  destruct (Qle_bool (inject_Z n) (tokens l1)).
  - by eexists.
  - rewrite py_div_defined by (apply inject_Z_nonzero; congruence).
    by eexists.
Qed.

(** C3, as the code has it. With a non-zero [max_requests] and
    [time_window], [acquire] raises nothing, whatever the request and the
    clock; and for a request above [burst_size] it never returns either:
    it is still waiting after every reading of the clock. *)
Theorem acquire_over_burst_waits (clock : list Q) (n : Z) : ∀ l : limiter,
  ¬ time_window l == 0 →
  max_requests l ≠ 0%Z →
  (∃ r, acquire clock n l = inr r)
  ∧ ((burst_size l < n)%Z → ∃ l', acquire clock n l = inr (Waiting l')).
Proof.
  induction clock as [|now later IH]; intros l Htw Hmr.
  - simpl. split; [by eexists|]. intros _. by eexists.
  - simpl. unfold bind. split.
    + destruct (attempt_defined now n l Htw Hmr) as (r & -> & Hr).
      destruct r as [l1|w l1]; [by eexists|].
      destruct Hr as (Htw1 & Hmr1 & _).
      apply IH; congruence.
    + intros Hn.
      destruct (attempt_over_burst now n l Hn Htw Hmr) as (w & l1 & -> & Hbs & Htw1 & Hmr1).
      apply IH; congruence.
Qed.

Lemma acquire_over_burst_sample :
  ¬ time_window deepseek_limiter == 0
  ∧ max_requests deepseek_limiter ≠ 0%Z
  ∧ (burst_size deepseek_limiter < 21)%Z
  ∧ ∃ l', acquire [0; 1; 2; 3] 21 deepseek_limiter = inr (Waiting l').
Proof.
  assert (¬ time_window deepseek_limiter == 0) as Htw by (by vm_compute).
  assert (max_requests deepseek_limiter ≠ 0%Z) as Hmr by (by vm_compute).
  assert (burst_size deepseek_limiter < 21)%Z as Hn by (by vm_compute).
  split; [exact Htw|]. split; [exact Hmr|]. split; [exact Hn|].
  exact (proj2 (acquire_over_burst_waits [0; 1; 2; 3] 21 deepseek_limiter Htw Hmr) Hn).
Defined.

(** A request of 21 tokens from a bucket of 20 raises no error: the call
    is left waiting. *)
Lemma acquire_over_burst_no_error :
  (burst_size deepseek_limiter < 21)%Z
  ∧ ∀ e, acquire [0; 1; 2; 3] 21 deepseek_limiter ≠ inl e.
Proof. split; [done|]. intros e. vm_compute. discriminate. Qed.


(** ** The adaptive limiter *)

Lemma on_success_below now a :
  (consecutive_successes a + 1 < 10)%Z →
  on_success now a = with_successes (consecutive_successes a + 1) a.
Proof.
  intros H. unfold on_success. simpl.
  destruct (Z.leb_spec 10 (consecutive_successes a + 1)); [lia|done].
Qed.

Lemma on_success_threshold now a :
  (10 <= consecutive_successes a + 1)%Z →
  on_success now a
  = with_successes 0 (_increase_rate now (with_successes (consecutive_successes a + 1) a)).
Proof.
  intros H. unfold on_success. simpl.
  destruct (Z.leb_spec 10 (consecutive_successes a + 1)); [done|lia].
Qed.

Lemma on_success_run_below clock : ∀ a,
  (consecutive_successes a + Z.of_nat (length clock) < 10)%Z →
  on_success_run clock a
  = with_successes (consecutive_successes a + Z.of_nat (length clock)) a.
Proof.
  induction clock as [|now later IH]; intros a H.
  - simpl. rewrite Z.add_0_r. by destruct a.
  - change (on_success_run (now :: later) a)
      with (on_success_run later (on_success now a)).
    simpl length in *.
    rewrite on_success_below by lia.
    rewrite IH by (simpl; lia).
    unfold with_successes. simpl. f_equal. lia.
Qed.

Lemma increase_rate_fields now a :
  let a' := _increase_rate now a in
  current_rate a' = py_min (max_rate a) (current_rate a * increase_factor a)
  ∧ min_rate a' = min_rate a ∧ max_rate a' = max_rate a
  ∧ increase_factor a' = increase_factor a ∧ decrease_factor a' = decrease_factor a
  ∧ consecutive_successes a' = consecutive_successes a.
Proof.
  unfold _increase_rate. simpl.
  destruct (negb (Qeq_bool _ _)); simpl; done.
Qed.

Lemma decrease_rate_fields now a :
  let a' := _decrease_rate now a in
  current_rate a' = py_max (min_rate a) (current_rate a * decrease_factor a)
  ∧ min_rate a' = min_rate a ∧ max_rate a' = max_rate a
  ∧ increase_factor a' = increase_factor a ∧ decrease_factor a' = decrease_factor a
  ∧ consecutive_successes a' = consecutive_successes a.
Proof.
  unfold _decrease_rate. simpl.
  destruct (negb (Qeq_bool _ _)); simpl; done.
Qed.

Lemma increase_in_range (r lo hi f : Q) :
  0 <= lo → lo <= r → r <= hi → 1 <= f →
  lo <= py_min hi (r * f) ∧ py_min hi (r * f) <= hi.
Proof.
  intros Hlo Hr Hhi Hf.
  destruct (py_min_cases hi (r * f)) as [[H ->]|[H ->]]; nra.
Qed.

Lemma decrease_in_range (r lo hi f : Q) :
  0 <= lo → lo <= r → r <= hi → f <= 1 →
  lo <= py_max lo (r * f) ∧ py_max lo (r * f) <= hi.
Proof.
  intros Hlo Hr Hhi Hf.
  destruct (py_max_cases lo (r * f)) as [[H ->]|[H ->]]; nra.
Qed.

(** C7. For an adaptive limiter whose rate lies in
    [[min_rate, max_rate]], with [0 <= min_rate], [increase_factor >= 1]
    and [decrease_factor <= 1]: when the count of successes is 0, nine
    [on_success] calls leave the rate as it is, the tenth multiplies it by
    [increase_factor], clamped to [max_rate], and resets the count to 0;
    one [on_rate_limit] call multiplies the rate by [decrease_factor],
    clamped to [min_rate], and resets the count to 0; and every single
    [on_success] or [on_rate_limit] call, whatever the count, leaves the
    rate in [[min_rate, max_rate]] and the bounds and factors as they
    were. *)
Theorem adaptive_rate_adjustment (a : adaptive) (clock : list Q) (now : Q) :
  rate_in_range a →
  0 <= min_rate a →
  1 <= increase_factor a →
  decrease_factor a <= 1 →
  (consecutive_successes a = 0%Z →
   length clock = 10%nat →
   current_rate (on_success_run (firstn 9 clock) a) = current_rate a
   ∧ current_rate (on_success_run clock a)
     = py_min (max_rate a) (current_rate a * increase_factor a)
   ∧ consecutive_successes (on_success_run clock a) = 0%Z
   ∧ rate_in_range (on_success_run clock a))
  ∧ (current_rate (on_rate_limit now a)
       = py_max (min_rate a) (current_rate a * decrease_factor a)
     ∧ consecutive_successes (on_rate_limit now a) = 0%Z
     ∧ rate_in_range (on_rate_limit now a))
  ∧ (rate_in_range (on_success now a)
     ∧ min_rate (on_success now a) = min_rate a
     ∧ max_rate (on_success now a) = max_rate a
     ∧ increase_factor (on_success now a) = increase_factor a
     ∧ decrease_factor (on_success now a) = decrease_factor a)
  ∧ (min_rate (on_rate_limit now a) = min_rate a
     ∧ max_rate (on_rate_limit now a) = max_rate a
     ∧ increase_factor (on_rate_limit now a) = increase_factor a
     ∧ decrease_factor (on_rate_limit now a) = decrease_factor a).
Proof.
  intros [Hlo Hhi] Hmin Hinc Hdec.
  split; [|split; [|split]].
  - intros Hcount Hlen.
    assert (on_success_run (firstn 9 clock) a = with_successes 9 a) as Hnine.
    { rewrite on_success_run_below; rewrite length_firstn, Hlen, Hcount; [done|].
      simpl. lia. }
    split; [by rewrite Hnine|].
    rewrite <- (firstn_skipn 9 clock) at 1 2 3.
    unfold on_success_run at 1 2 3. rewrite !fold_left_app.
    fold (on_success_run (take 9 clock) a). rewrite Hnine.
    assert (∃ t, drop 9 clock = [t]) as [t ->].
    { do 9 (destruct clock as [|? clock]; [discriminate|]).
      destruct clock as [|t [|]]; try discriminate. by exists t. }
    simpl fold_left. rewrite on_success_threshold by (simpl; lia).
    destruct (increase_rate_fields t
                (with_successes (consecutive_successes (with_successes 9 a) + 1)
                   (with_successes 9 a))) as (Hrate & Hmn & Hmx & _).
    simpl in Hrate, Hmn, Hmx.
    unfold rate_in_range. simpl. rewrite Hrate, Hmn, Hmx.
    split; [done|]. split; [done|].
    by apply increase_in_range.
  - unfold on_rate_limit.
    destruct (decrease_rate_fields now (with_successes 0 a))
      as (Hrate & Hmn & Hmx & _ & _ & Hcs).
    simpl in Hrate, Hmn, Hmx, Hcs.
    unfold rate_in_range. rewrite Hrate, Hmn, Hmx, Hcs.
    split; [done|]. split; [done|].
    by apply decrease_in_range.
  - destruct (Z_lt_le_dec (consecutive_successes a + 1) 10) as [Hc|Hc].
    + rewrite on_success_below by done. unfold rate_in_range. simpl. done.
    + rewrite on_success_threshold by done.
      destruct (increase_rate_fields now
                  (with_successes (consecutive_successes a + 1) a))
        as (Hrate & Hmn & Hmx & Hif & Hdf & _).
      simpl in Hrate, Hmn, Hmx, Hif, Hdf.
      unfold rate_in_range. simpl. rewrite Hrate, Hmn, Hmx, Hif, Hdf.
      split; [|done]. by apply increase_in_range.
  - unfold on_rate_limit.
    destruct (decrease_rate_fields now (with_successes 0 a))
      as (_ & Hmn & Hmx & Hif & Hdf & _).
    simpl in Hmn, Hmx, Hif, Hdf. by rewrite Hmn, Hmx, Hif, Hdf.
Qed.

Lemma adaptive_rate_adjustment_sample :
  rate_in_range default_adaptive
  ∧ rate_in_range (on_success_run [1; 2; 3; 4; 5; 6; 7; 8; 9; 10] default_adaptive)
  ∧ rate_in_range (on_rate_limit 1 default_adaptive)
  ∧ rate_in_range (on_success 1 default_adaptive).
Proof.
  assert (rate_in_range default_adaptive) as Hr by (split; by vm_compute).
  destruct (adaptive_rate_adjustment default_adaptive
              [1; 2; 3; 4; 5; 6; 7; 8; 9; 10] 1 Hr)
    as (Hrun & (_ & _ & Hdown) & (Hone & _) & _);
    [by vm_compute..|].
  destruct (Hrun eq_refl eq_refl) as (_ & _ & _ & Hup).
  split; [exact Hr|]. split; [exact Hup|]. split; [exact Hdown|exact Hone].
Defined.


(** ** A rate below one request *)

Lemma py_int_small (r : Q) : -1 < r → r < 1 → py_int r = 0%Z.
Proof.
  destruct r as [p q]. unfold Qlt, py_int. simpl. intros H0 H1.
  apply Z.quot_small_iff; lia.
Qed.

Lemma constructor_starved initial mn mx inc dec t0 :
  starved (AdaptiveRateLimiter initial mn mx inc dec t0).
Proof.
  intros [H0 H1]. simpl in *. by apply py_int_small.
Qed.

Lemma on_rate_limit_fields now a :
  let a' := on_rate_limit now a in
  current_rate a' = py_max (min_rate a) (current_rate a * decrease_factor a)
  ∧ min_rate a' = min_rate a ∧ decrease_factor a' = decrease_factor a.
Proof.
  unfold on_rate_limit.
  destruct (decrease_rate_fields now (with_successes 0 a)) as (H1 & H2 & _ & _ & H3 & _).
  done.
Qed.

(** The limiter is rebuilt whenever the rate changes. *)
Lemma on_rate_limit_starved now a : starved a → starved (on_rate_limit now a).
Proof.
  intros Hz. unfold starved, on_rate_limit, _decrease_rate in *. simpl in *.
  destruct (Qeq_bool (py_max (min_rate a) (current_rate a * decrease_factor a))
                     (current_rate a)) eqn:E; simpl in *.
  - apply Qeq_bool_iff in E. intros [H0 H1]. apply Hz. lra.
  - intros [H0 H1]. by apply py_int_small.
Qed.

Lemma shrunk_step c d mn j r :
  mn < 1 → 0 <= d → d < 1 →
  shrunk c d j r → shrunk c d (S j) (py_max mn (r * d)).
Proof.
  intros Hmn Hd Hd1 Hs.
  assert (0 <= inject_Z (Z.of_nat j)) as Hj.
  { change 0 with (inject_Z 0). rewrite <- Zle_Qle. lia. }
  assert (inject_Z (Z.of_nat (S j)) == inject_Z (Z.of_nat j) + 1) as HS.
  { rewrite Nat2Z.inj_succ. unfold Z.succ. by rewrite inject_Z_plus. }
  unfold shrunk in *. rewrite HS.
  set (k := inject_Z (Z.of_nat j)) in *.
  assert (0 <= k * (1 - d)) as Hky by (apply Qmult_le_0_compat; lra).
  assert (0 <= d * (k * (1 - d))) as Hdky by (apply Qmult_le_0_compat; lra).
  assert (0 <= (1 - d) * (k * (1 - d))) as Hyky by (apply Qmult_le_0_compat; lra).
  (* the product of the rate by the factor keeps the bound *)
  assert ((-1 < r * d ∧ r * d < 1)
          ∨ (- (c * d) <= r * d * (d + (k + 1) * (1 - d))
             ∧ r * d * (d + (k + 1) * (1 - d)) <= c * d)) as Hrd.
  { destruct Hs as [[H0 H1]|[H0 H1]].
    - left. destruct (Qlt_le_dec r 0) as [Hneg|Hpos].
      + assert (0 <= (- r) * (1 - d)) by (apply Qmult_le_0_compat; lra).
        assert (0 <= (- r) * d) by (apply Qmult_le_0_compat; lra).
        lra.
      + assert (0 <= r * (1 - d)) by (apply Qmult_le_0_compat; lra).
        assert (0 <= r * d) by (apply Qmult_le_0_compat; lra).
        lra.
    - right. destruct (Qlt_le_dec r 0) as [Hneg|Hpos].
      + assert (0 <= (- r) * ((1 - d) * (k * (1 - d))))
          by (apply Qmult_le_0_compat; lra).
        assert (0 <= (- r) * (d + d * (k * (1 - d))))
          by (apply Qmult_le_0_compat; lra).
        lra.
      + assert (0 <= r * ((1 - d) * (k * (1 - d))))
          by (apply Qmult_le_0_compat; lra).
        assert (0 <= r * (d + d * (k * (1 - d))))
          by (apply Qmult_le_0_compat; lra).
        lra. }
  destruct (py_max_cases mn (r * d)) as [[H ->]|[H ->]]; [done|].
  destruct (Qlt_le_dec (-1) mn) as [Hlow|Hlow]; [by left|].
  destruct Hrd as [[H0 H1]|[H0 H1]]; [lra|].
  right.
  assert (0 <= (mn - r * d) * (d + (k + 1) * (1 - d)))
    by (apply Qmult_le_0_compat; lra).
  assert (0 <= (- mn) * (d + (k + 1) * (1 - d)))
    by (apply Qmult_le_0_compat; lra).
  lra.
Qed.

Lemma on_rate_limit_run_shrinks clock : ∀ a c j,
  min_rate a < 1 →
  0 <= decrease_factor a → decrease_factor a < 1 →
  starved a →
  shrunk c (decrease_factor a) j (current_rate a) →
  let a' := on_rate_limit_run clock a in
  starved a' ∧ shrunk c (decrease_factor a) (j + length clock) (current_rate a').
Proof.
  induction clock as [|now later IH]; intros a c j Hmn1 Hd Hd1 Hst Hsh.
  - simpl. by rewrite Nat.add_0_r.
  - change (on_rate_limit_run (now :: later) a)
      with (on_rate_limit_run later (on_rate_limit now a)).
    destruct (on_rate_limit_fields now a) as (Hrate & Hmin & Hdec).
    simpl length. rewrite <- Nat.add_succ_comm, <- Hdec.
    apply IH; rewrite ?Hmin, ?Hdec; try done.
    + by apply on_rate_limit_starved.
    + rewrite Hrate. by apply shrunk_step.
Qed.

Lemma shrunk_below_one c d j r :
  0 <= d → d < 1 →
  c * d < inject_Z (Z.of_nat j) * (1 - d) →
  shrunk c d j r → -1 < r ∧ r < 1.
Proof.
  intros Hd Hd1 Hj [H|[H0 H1]]; [done|].
  assert (0 <= inject_Z (Z.of_nat j)) as Hk.
  { change 0 with (inject_Z 0). rewrite <- Zle_Qle. lia. }
  set (k := inject_Z (Z.of_nat j)) in *.
  assert (0 <= k * (1 - d)) by (apply Qmult_le_0_compat; lra).
  split; apply Qnot_le_lt; intros Hge.
  - assert (0 <= (-1 - r) * (d + k * (1 - d))) by (apply Qmult_le_0_compat; lra).
    lra.
  - assert (0 <= (r - 1) * (d + k * (1 - d))) by (apply Qmult_le_0_compat; lra).
    lra.
Qed.

Lemma enough_reports (c d : Q) :
  d < 1 → ∃ k : nat, ∀ j, (k <= j)%nat → c * d < inject_Z (Z.of_nat j) * (1 - d).
Proof.
  intros Hd.
  destruct (Qarchimedean (c * d / (1 - d))) as [p Hp].
  exists (Pos.to_nat p). intros j Hj.
  assert (inject_Z (Z.pos p) <= inject_Z (Z.of_nat j)) as Hle.
  { rewrite <- Zle_Qle. lia. }
  assert (c * d / (1 - d) * (1 - d) == c * d) as Heq by (field; lra).
  change (Z.pos p # 1) with (inject_Z (Z.pos p)) in Hp.
  assert (c * d / (1 - d) * (1 - d) < inject_Z (Z.pos p) * (1 - d)) as Hlt.
  { apply Qmult_lt_compat_r; lra. }
  nra.
Qed.

Lemma attempt_zero_rate now n l :
  max_requests l = 0%Z →
  (∀ l1, refill now l = inr l1 → tokens l1 < inject_Z n) →
  attempt now n l = inl ZeroDivisionError.
Proof.
  intros Hmr Hlow. unfold attempt, bind, ret.
  destruct (refill now l) as [e|l1] eqn:Hre.
  - unfold refill, bind, ret, raise, py_div in Hre.
    destruct (Qeq_bool (time_window l) 0); [by injection Hre as <-|discriminate].
  - specialize (Hlow l1 eq_refl).
    destruct (refill_config _ _ _ Hre) as (Hmr1 & _).
    destruct (Qle_bool (inject_Z n) (tokens l1)) eqn:E.
    + apply Qle_bool_iff in E. lra.
    + rewrite py_div_zero; [done|]. by rewrite Hmr1, Hmr.
Qed.

(** C10. (1) An adaptive limiter built with [min_rate < 1] and a
    [decrease_factor] in [[0, 1)] has, after enough [on_rate_limit] calls,
    an inner limiter with [max_requests = 0]: the rebuild truncates the
    rate to zero. (2) On a limiter with
    [max_requests = 0], a turn of [acquire] that finds too few tokens
    raises [ZeroDivisionError], and so does the call. (3) With
    [max_requests >= 1] and a non-zero [time_window] the turn raises
    nothing: the wait time is defined. *)
Theorem zero_rate_division :
  (∀ initial_rate mn mx inc dec t0 : Q,
      mn < 1 → 0 <= dec → dec < 1 →
      ∃ k : nat, ∀ clock : list Q, (k <= length clock)%nat →
        max_requests
          (inner (on_rate_limit_run clock
                    (AdaptiveRateLimiter initial_rate mn mx inc dec t0))) = 0%Z)
  ∧ (∀ (l : limiter) (now : Q) (n : Z) (later : list Q),
        max_requests l = 0%Z →
        (∀ l1, refill now l = inr l1 → tokens l1 < inject_Z n) →
        attempt now n l = inl ZeroDivisionError
        ∧ acquire (now :: later) n l = inl ZeroDivisionError)
  ∧ (∀ (l : limiter) (now : Q) (n : Z),
        (1 <= max_requests l)%Z → ¬ time_window l == 0 →
        ∃ r, attempt now n l = inr r).
Proof.
  split; [|split].
  - intros c mn mx inc dec t0 Hmn1 Hd Hd1.
    destruct (enough_reports (Qabs c) dec Hd1) as [k Hk].
    exists k. intros clock Hlen.
    set (a := AdaptiveRateLimiter c mn mx inc dec t0).
    assert (starved a) as Hst by apply constructor_starved.
    assert (shrunk (Qabs c) (decrease_factor a) 0 (current_rate a)) as Hsh0.
    { right. change (- (Qabs c * dec) <= c * (dec + 0 * (1 - dec))
                     ∧ c * (dec + 0 * (1 - dec)) <= Qabs c * dec).
      pose proof (Qabs_nonneg c) as Habs.
      destruct (Qlt_le_dec c 0) as [Hneg|Hpos].
      - rewrite (Qabs_neg c) by lra.
        assert (0 <= (- c) * dec) by (apply Qmult_le_0_compat; lra). lra.
      - rewrite (Qabs_pos c) by lra.
        assert (0 <= c * dec) by (apply Qmult_le_0_compat; lra). lra. }
    destruct (on_rate_limit_run_shrinks clock a (Qabs c) 0 Hmn1 Hd Hd1 Hst Hsh0)
      as [Hz Hsh].
    apply Hz. simpl in Hsh.
    apply (shrunk_below_one (Qabs c) dec (length clock)); try done. by apply Hk.
  - intros l now n later Hmr Hlow.
    pose proof (attempt_zero_rate now n l Hmr Hlow) as H.
    split; [done|]. simpl. by rewrite H.
  - intros l now n Hmr Htw.
    destruct (attempt_defined now n l Htw) as (r & Hr & _); [lia|]. by exists r.
Qed.

Lemma zero_rate_division_sample :
  (∃ k : nat, ∀ clock : list Q, (k <= length clock)%nat →
      max_requests (inner (on_rate_limit_run clock default_adaptive)) = 0%Z)
  ∧ acquire [2; 3] 1 (RateLimiter 0 1 None 0) = inl ZeroDivisionError
  ∧ ∃ r, attempt 1 21 deepseek_limiter = inr r.
Proof.
  destruct zero_rate_division as (Hdown & Hzero & Hpos).
  split; [|split].
  - apply (Hdown 10 (1 # 2) 100 (11 # 10) (1 # 2) 0); by vm_compute.
  - apply (Hzero (RateLimiter 0 1 None 0) 2 1%Z [3]); [reflexivity|].
    intros l1 [= <-]. by vm_compute.
  - apply (Hpos deepseek_limiter 1 21%Z); by vm_compute.
Defined.

End RateLimitFacts.

(* ===================================================================== *)
(** * Properties of the retry wrapper *)
(* ===================================================================== *)

Module RetryFacts.
Import Py RateLimit Retry RateLimitFacts.
Local Open Scope Q_scope.

Lemma pow2_pos (k : nat) : 0 < inject_Z (2 ^ Z.of_nat k).
Proof.
  change 0 with (inject_Z 0). rewrite <- Zlt_Qlt. apply Z.pow_pos_nonneg; lia.
Qed.

Lemma pow2_mono (i j : nat) :
  (i <= j)%nat → inject_Z (2 ^ Z.of_nat i) <= inject_Z (2 ^ Z.of_nat j).
Proof.
  intros H. rewrite <- Zle_Qle. apply Z.pow_le_mono_r; lia.
Qed.

Lemma capped_delay_mono (i j : nat) (base_delay max_delay : Q) :
  0 <= base_delay → (i <= j)%nat →
  capped_delay i base_delay max_delay <= capped_delay j base_delay max_delay.
Proof.
  intros Hb Hij. unfold capped_delay.
  pose proof (pow2_mono i j Hij) as Hp.
  assert (base_delay * inject_Z (2 ^ Z.of_nat i)
          <= base_delay * inject_Z (2 ^ Z.of_nat j)) as Hm.
  { rewrite !(Qmult_comm base_delay). by apply Qmult_le_compat_r. }
  destruct (py_min_cases (base_delay * inject_Z (2 ^ Z.of_nat i)) max_delay)
    as [[H1 ->]|[H1 ->]];
  destruct (py_min_cases (base_delay * inject_Z (2 ^ Z.of_nat j)) max_delay)
    as [[H2 ->]|[H2 ->]]; lra.
Qed.

(** C8, as the code has it. For [base_delay >= 0], [max_delay >= 0] and
    every draw [u] of the random generator in [[0, 1]], the delay of
    [exponential_backoff] lies within [(1 ± 1/4)] of the delay before the
    jitter, [min(base_delay * 2^attempt, max_delay)]; so it lies in
    [[0, max_delay * (1 + 1/4)]], is at most
    [base_delay * 2^attempt * (1 + 1/4)], and is at least
    [base_delay * 2^attempt * (1 - 1/4)] as long as
    [base_delay * 2^attempt <= max_delay]. The delay before the jitter
    does not decrease with the attempt and is at most [max_delay]. *)
Theorem backoff_within_jitter (attempt : nat) (base_delay max_delay u : Q) :
  0 <= base_delay → 0 <= max_delay → 0 <= u → u <= 1 →
  let uncapped := base_delay * inject_Z (2 ^ Z.of_nat attempt) in
  let delay := capped_delay attempt base_delay max_delay in
  let sample := exponential_backoff attempt base_delay max_delay true u in
  (delay * (1 - (1 # 4)) <= sample ∧ sample <= delay * (1 + (1 # 4)))
  ∧ (0 <= sample ∧ sample <= max_delay * (1 + (1 # 4)))
  ∧ sample <= uncapped * (1 + (1 # 4))
  ∧ (uncapped <= max_delay → uncapped * (1 - (1 # 4)) <= sample)
  ∧ (∀ later, (attempt <= later)%nat →
       delay <= capped_delay later base_delay max_delay
       ∧ capped_delay later base_delay max_delay <= max_delay).
Proof.
  intros Hb Hm Hu0 Hu1 uncapped delay sample.
  pose proof (pow2_pos attempt) as Hpow.
  assert (0 <= uncapped) as Hun by (apply Qmult_le_0_compat; lra).
  assert (0 <= delay ∧ delay <= max_delay ∧ delay <= uncapped
          ∧ (uncapped <= max_delay → delay = uncapped)) as (Hd0 & Hdm & Hdu & Heq).
  { unfold delay, capped_delay. fold uncapped.
    destruct (py_min_cases uncapped max_delay) as [[H ->]|[H ->]];
      repeat split; try lra; try done; intros; lra. }
  assert (delay * (3 # 4) <= sample ∧ sample <= delay * (5 # 4)) as [Hlo Hhi].
  { unfold sample, exponential_backoff, uniform. fold (capped_delay attempt base_delay max_delay).
    fold delay.
    assert (0 <= delay * u) by (apply Qmult_le_0_compat; lra).
    assert (delay * u <= delay * 1) by (rewrite !(Qmult_comm delay); apply Qmult_le_compat_r; lra).
    destruct (py_max_cases 0 (delay + (- (delay * (1 # 4))
                 + (delay * (1 # 4) - - (delay * (1 # 4))) * u))) as [[H' ->]|[H' ->]];
      split; lra. }
  repeat split; try lra.
  - intros Hle. rewrite <- (Heq Hle). lra.
  - by apply capped_delay_mono.
  - unfold capped_delay.
    destruct (py_min_cases (base_delay * inject_Z (2 ^ Z.of_nat later)) max_delay)
      as [[Hc ->]|[Hc ->]]; lra.
Qed.

Lemma backoff_within_jitter_sample :
  0 <= 1 ∧ 0 <= 60 ∧ 0 <= 1 # 2 ∧ 1 # 2 <= 1
  ∧ 0 <= exponential_backoff 7 1 60 true (1 # 2)
  ∧ exponential_backoff 7 1 60 true (1 # 2) <= 60 * (1 + (1 # 4)).
Proof.
  assert (0 <= 1) as H1 by (by vm_compute).
  assert (0 <= 60) as H2 by (by vm_compute).
  assert (0 <= 1 # 2) as H3 by (by vm_compute).
  assert (1 # 2 <= 1) as H4 by (by vm_compute).
  split; [exact H1|]. split; [exact H2|]. split; [exact H3|]. split; [exact H4|].
  exact (proj1 (proj2 (backoff_within_jitter 7 1 60 (1 # 2) H1 H2 H3 H4))).
Defined.

(** At attempt 7 with the default delays the delay before the jitter is
    capped at 60 and the sample is 60, below [128 * (1 - 1/4)] clamped to
    [60 * (1 + 1/4)], the lower end of the interval of the
    specification. *)
Lemma backoff_outside_spec_interval :
  ¬ (spec_low 7 1 60 (1 # 4) <= exponential_backoff 7 1 60 true (1 # 2)
     ∧ exponential_backoff 7 1 60 true (1 # 2) <= spec_high 7 1 60 (1 # 4)).
Proof.
  intros [H _]. vm_compute in H. by apply H.
Qed.

Section Attempts.
Context {E V : Type}.
Variable max_attempts : Z.
Variable base_delay max_delay : Q.
Variable exceptions : E → bool.
Variable on_retry : bool.
Variable func : Z → E + V.
Variable draw : Z → Q.

Local Abbreviation loop := (wrapper_loop max_attempts base_delay max_delay exceptions on_retry func draw).

Lemma invocations_retry attempt (hook : list (event E)) delay events :
  (∀ ev, ev ∈ hook → is_call ev = false) →
  invocations (Called attempt :: hook ++ Slept delay :: events)
  = S (invocations events).
Proof.
  intros Hhook. unfold invocations. simpl. f_equal.
  rewrite List.filter_app. simpl.
  assert (List.filter is_call hook = []) as ->; [|done].
  induction hook as [|ev hook IH]; [done|].
  simpl. rewrite (Hhook ev) by set_solver. apply IH. intros ev' ?. apply Hhook. set_solver.
Qed.

(** All the attempts left fail with a retryable error. *)
Lemma loop_exhausted (k : nat) : ∀ (i : nat) last,
  Z.of_nat (i + S k) = max_attempts →
  (∀ j, (Z.of_nat i <= j < max_attempts)%Z → ∃ e, func j = inl e ∧ exceptions e = true) →
  ∃ e, func (max_attempts - 1) = inl e
       ∧ snd (loop (map Z.of_nat (seq i (S k))) last) = Raise e
       ∧ invocations (fst (loop (map Z.of_nat (seq i (S k))) last)) = S k.
Proof.
  induction k as [|k IH]; intros i last Hlen Hfail.
  - destruct (Hfail (Z.of_nat i)) as (e & He & Hex); [lia|].
    exists e. replace (max_attempts - 1)%Z with (Z.of_nat i) by lia.
    split; [done|]. simpl. rewrite He, Hex.
    replace (Z.of_nat i =? max_attempts - 1)%Z with true by (symmetry; apply Z.eqb_eq; lia).
    done.
  - destruct (Hfail (Z.of_nat i)) as (e & He & Hex); [lia|].
    destruct (IH (S i) (Some e)) as (e' & He' & Hout & Hcalls); [lia|intros j Hj; apply Hfail; lia|].
    exists e'. split; [done|].
    change (seq i (S (S k))) with (i :: seq (S i) (S k)).
    rewrite map_cons. cbn [wrapper_loop]. rewrite He, Hex.
    replace (Z.of_nat i =? max_attempts - 1)%Z with false by (symmetry; apply Z.eqb_neq; lia).
    destruct (loop (map Z.of_nat (seq (S i) (S k))) (Some e)) as [events out].
    simpl in Hout, Hcalls. simpl fst. simpl snd. split; [done|].
    rewrite invocations_retry; [by rewrite Hcalls|].
    intros ev. destruct on_retry; set_solver.
Qed.

End Attempts.

(** C5. (1) With [max_attempts = 3], a function that raises a retryable
    error at its first two calls and returns a value at the third: the
    wrapper returns that value and has called the function 3 times.
    (2) With [max_attempts >= 1], an error at the first call that is not
    retryable leaves the wrapper after that one call, with no callback and
    no sleep. (3) With [max_attempts >= 1] and a retryable error at every
    call, the wrapper raises the error of the last call, after
    [max_attempts] calls. *)
Theorem retry_async_attempts {E V : Type} :
  (∀ (base_delay max_delay : Q) (exceptions : E → bool) (on_retry : bool)
     (func : Z → E + V) (draw : Z → Q) (e0 e1 : E) (v : V),
      func 0%Z = inl e0 → exceptions e0 = true →
      func 1%Z = inl e1 → exceptions e1 = true →
      func 2%Z = inr v →
      let r := wrapper 3 base_delay max_delay exceptions on_retry func draw in
      snd r = Return v ∧ invocations (fst r) = 3%nat)
  ∧ (∀ (max_attempts : Z) (base_delay max_delay : Q) (exceptions : E → bool)
       (on_retry : bool) (func : Z → E + V) (draw : Z → Q) (e : E),
        (1 <= max_attempts)%Z →
        func 0%Z = inl e → exceptions e = false →
        wrapper max_attempts base_delay max_delay exceptions on_retry func draw
        = ([Called 0], Raise e))
  ∧ (∀ (max_attempts : Z) (base_delay max_delay : Q) (exceptions : E → bool)
       (on_retry : bool) (func : Z → E + V) (draw : Z → Q),
        (1 <= max_attempts)%Z →
        (∀ k, (0 <= k < max_attempts)%Z → ∃ e, func k = inl e ∧ exceptions e = true) →
        let r := wrapper max_attempts base_delay max_delay exceptions on_retry func draw in
        ∃ e, func (max_attempts - 1)%Z = inl e
             ∧ snd r = Raise e
             ∧ invocations (fst r) = Z.to_nat max_attempts).
Proof.
  split; [|split].
  - intros base_delay max_delay exceptions on_retry func draw e0 e1 v H0 X0 H1 X1 H2.
    unfold wrapper. change (range 3) with [0; 1; 2]%Z.
    cbn [wrapper_loop]. rewrite H0, X0, H1, X1, H2. simpl.
    split; [done|]. destruct on_retry; done.
  - intros max_attempts base_delay max_delay exceptions on_retry func draw e Hmax H0 X0.
    unfold wrapper, range.
    destruct (Z.to_nat max_attempts) as [|k] eqn:Hk; [lia|].
    change (seq 0 (S k)) with (0%nat :: seq 1 k). rewrite map_cons.
    cbn [wrapper_loop]. change (Z.of_nat 0) with 0%Z. by rewrite H0, X0.
  - intros max_attempts base_delay max_delay exceptions on_retry func draw Hmax Hfail.
    unfold wrapper, range.
    destruct (Z.to_nat max_attempts) as [|k] eqn:Hk; [lia|].
    apply loop_exhausted; [lia|]. intros j Hj. apply Hfail. lia.
Qed.

Lemma retry_async_attempts_sample :
  (snd (wrapper 3 1 60 is_connection_error true flaky half) = Return "page"
   ∧ invocations (fst (wrapper 3 1 60 is_connection_error true flaky half)) = 3%nat)
  ∧ wrapper 3 1 60 (λ _, false) true flaky half = ([Called 0], Raise "ConnectionError")
  ∧ ∃ e, snd (wrapper 5 1 30 is_connection_error false always_down half) = Raise e
         ∧ invocations (fst (wrapper 5 1 30 is_connection_error false always_down half))
           = 5%nat.
Proof.
  destruct (@retry_async_attempts string string) as (Hthird & Hfirst & Hlast).
  split; [|split].
  - apply (Hthird 1 60 is_connection_error true flaky half
             "ConnectionError" "ConnectionError" "page"); reflexivity.
  - apply (Hfirst 3%Z 1 60 (λ _, false) true flaky half "ConnectionError");
      [by vm_compute|reflexivity|reflexivity].
  - destruct (Hlast 5%Z 1 30 is_connection_error false always_down half)
      as (e & _ & Hout & Hcalls).
    + by vm_compute.
    + intros k _. exists "ConnectionError". split; reflexivity.
    + exists e. split; [exact Hout|exact Hcalls].
Defined.

End RetryFacts.

(* ===================================================================== *)
(** * Properties of the batch *)
(* ===================================================================== *)

Module WorkflowFacts.
Import Py Storage Workflow StorageFacts.
Local Open Scope py_scope.





(** No path of the batch writes the failed set or the set of known ids. *)
Lemma update_keeps_failed (farm_id : json) (description now : string) (st : store) :
  let st' := snd (update_farm_description farm_id description now st) in
  farms_failed st' = farms_failed st ∧ farms_all st' = farms_all st.
Proof.
  unfold update_farm_description, execute. simpl.
  destruct (redis_encode farm_id) as [m|]; simpl; done.
Qed.

Lemma try_block_keeps_failed env i farm farm_id website r st :
  let st' := snd (try_block env i farm farm_id website r st) in
  farms_failed st' = farms_failed st ∧ farms_all st' = farms_all st.
Proof.
  unfold try_block, csv_step.
  destruct (scrape_farm_website env website) as [sections|error].
  - destruct (generate env farm sections) as [e|[description|error]]; simpl; try done.
    + pose proof (update_keeps_failed farm_id description (now env i) st) as H.
      destruct (update_farm_description farm_id description (now env i) st) as [ok st1].
      by destruct (save_to_csv env farm _ _).
    + by destruct (save_to_csv env farm _ _).
  - by destruct (save_to_csv env farm _ _).
Qed.

Lemma process_loop_keeps_failed env farms : ∀ i r st r' st',
  process_loop env i farms r st = inr (r', st') →
  farms_failed st' = farms_failed st ∧ farms_all st' = farms_all st.
Proof.
  induction farms as [|farm rest IH]; intros i r st r' st'; simpl.
  - by intros [= <- <-].
  - unfold bind. destruct (process_one env i farm r st) as [e|[r1 st1]] eqn:Hone;
      [discriminate|].
    simpl. intros Hrest. destruct (IH _ _ _ _ _ Hrest) as [-> ->].
    unfold process_one, bind, ret in Hone.
    destruct (get_default farm "name" _); [discriminate|].
    destruct (get_default farm "id" _) as [|farm_id]; [discriminate|].
    destruct (get_default farm "contact" _) as [|contact]; [discriminate|].
    destruct (get_default contact "website" _) as [|website]; [discriminate|].
    injection Hone as Hone.
    pose proof (try_block_keeps_failed env i farm farm_id website r st) as H.
    rewrite Hone in H. exact H.
Qed.




End WorkflowFacts.

(* ===================================================================== *)
(** * More properties of the store *)
(* ===================================================================== *)

Module StorageOpsFacts.
Import Py Storage StorageOps StorageFacts.
Local Open Scope py_scope.

Lemma save_one_dict farm r : save_one farm = inr r → ∃ fields, farm = JObj fields.
Proof.
  unfold save_one, bind, get. destruct farm; try discriminate. by eexists.
Qed.

(** The commands of a record that is written are sent iff its id is one
    the client accepts. *)
Lemma save_one_packable farm cmds :
  save_one farm = inr (Some cmds) →
  forallb packable cmds = bool_decide (is_Some (member_of farm)).
Proof.
  unfold save_one, member_of, bind, ret, get.
  destruct farm as [| | | | |fields]; try discriminate.
  destruct (dict_lookup "id" fields) as [v|]; simpl; [|discriminate].
  destruct (truthy v); simpl; [|discriminate].
  destruct (tracking_set (JObj fields)) as [e|[k|]]; [discriminate| |];
    intros [= <-]; simpl; rewrite ?andb_true_r, ?andb_diag; done.
Qed.

Lemma save_one_written farm :
  (∃ cmds, save_one farm = inr (Some cmds) ∧ forallb packable cmds = true)
  ↔ is_Some (member_of farm) ∧ ∃ k, tracking_set farm = inr k.
Proof.
  split.
  - intros (cmds & Hone & Hpack).
    rewrite (save_one_packable _ _ Hone) in Hpack.
    apply bool_decide_eq_true in Hpack. split; [done|].
    unfold save_one, bind, ret, get in Hone.
    destruct farm as [| | | | |fields]; try discriminate.
    destruct (dict_lookup "id" fields) as [v|]; simpl in Hone; [|discriminate].
    destruct (truthy v); simpl in Hone; [|discriminate].
    destruct (tracking_set (JObj fields)) as [e|k]; [discriminate|]. by exists k.
  - intros [[m Hm] [k Hk]].
    assert (∃ cmds, save_one farm = inr (Some cmds)) as [cmds Hone].
    { unfold save_one, member_of, bind, ret, get in *.
      destruct farm as [| | | | |fields]; try discriminate.
      destruct (dict_lookup "id" fields) as [v|]; simpl in *; [|discriminate].
      destruct (truthy v); simpl; [|discriminate].
      rewrite Hk. by eexists. }
    exists cmds. split; [done|].
    rewrite (save_one_packable _ _ Hone), Hm. by apply bool_decide_eq_true.
Qed.


(** X1. [save_farm] on a dict never raises and leaves the store that
    [save_farms_batch] leaves for the batch of that one farm; it returns
    [True] exactly when the farm has an id the client accepts and its
    description, contact and website can be read. *)
Theorem save_farm_as_batch (fields : list (string * json)) (st : store) :
  ∃ ok, save_farm (JObj fields) st
        = inr (ok, snd (save_farms_batch [JObj fields] st))
        ∧ (ok = true ↔ is_Some (member_of (JObj fields))
                        ∧ ∃ k, tracking_set (JObj fields) = inr k).
Proof.
  destruct (save_one_written (JObj fields)) as [Hto Hfrom].
  set (W := is_Some (member_of (JObj fields)) ∧ ∃ k, tracking_set (JObj fields) = inr k)
    in *.
  unfold save_farm, save_farms_batch. simpl. unfold bind, ret.
  destruct (save_one (JObj fields)) as [e|[cmds|]] eqn:Hone; simpl.
  - exists false. split; [done|]. split; [done|].
    intros HW. by destruct (Hfrom HW) as (? & ? & _).
  - unfold execute.
    destruct (forallb packable cmds) eqn:Hpack; simpl.
    + exists true. split; [done|]. split; [|done]. intros _. apply Hto. by exists cmds.
    + exists false. split; [done|]. split; [done|].
      intros HW. destruct (Hfrom HW) as (cmds' & [= <-] & Hp). congruence.
  - exists false. split; [done|]. split; [done|].
    intros HW. by destruct (Hfrom HW) as (? & ? & _).
Qed.

(** X2. [save_farm] raises exactly for a farm that is no dict, and then
    [AttributeError]: the handler of its [except] reads [farm.get] again.
    For a dict every exception of the body ends in [False]. *)
Theorem save_farm_not_a_dict (farm : json) (st : store) :
  (∀ e, save_farm farm st = inl e → e = AttributeError)
  ∧ ((∃ e, save_farm farm st = inl e) ↔ ∀ fields, farm ≠ JObj fields).
Proof.
  destruct farm as [| | | | |fields];
    try (split; [by intros e [= <-]|split; [done|intros _; by eexists]]).
  assert (∃ r, save_farm (JObj fields) st = inr r) as [r Hr].
  { unfold save_farm. destruct (bind _ _) as [e|r]; simpl; by eexists. }
  rewrite Hr. split; [done|]. split; [by intros [e ?]|].
  intros H. by destruct (H fields).
Qed.

Lemma save_farm_not_a_dict_sample :
  save_farm (JStr "farm-1") empty_store = inl AttributeError.
Proof.
  destruct (save_farm_not_a_dict (JStr "farm-1") empty_store) as [Herr [_ Hraise]].
  destruct Hraise as [e He]; [done|]. rewrite He. f_equal. by apply Herr.
Defined.

Lemma save_loop_raises farms : ∀ buffer skipped e farm,
  farm ∈ farms → save_one farm = inl e →
  ∃ e', save_loop farms buffer skipped = inl e'.
Proof.
  induction farms as [|first rest IH]; intros buffer skipped e farm Hin Hone.
  - by apply elem_of_nil in Hin.
  - simpl. unfold bind. destruct (save_one first) as [e1|[cmds|]] eqn:H1.
    + by eexists.
    + apply elem_of_cons in Hin as [->|Hin]; [congruence|]. by eapply IH.
    + apply elem_of_cons in Hin as [->|Hin]; [congruence|]. by eapply IH.
Qed.

Lemma save_loop_extends farms : ∀ buffer skipped cmds n,
  save_loop farms buffer skipped = inr (cmds, n) → ∃ tail, cmds = buffer ++ tail.
Proof.
  induction farms as [|first rest IH]; intros buffer skipped cmds n; simpl.
  - unfold ret. intros [= <- <-]. exists []. by rewrite app_nil_r.
  - unfold bind. destruct (save_one first) as [e1|[c|]]; [discriminate| |].
    + intros H. destruct (IH _ _ _ _ H) as [tail ->].
      exists (c ++ tail). by rewrite app_assoc.
    + apply IH.
Qed.

(** The buffer of the loop holds the commands of every record written. *)
Lemma save_loop_buffer farms : ∀ buffer skipped cmds n farm one,
  save_loop farms buffer skipped = inr (cmds, n) →
  farm ∈ farms → save_one farm = inr (Some one) →
  forallb packable cmds = true → forallb packable one = true.
Proof.
  induction farms as [|first rest IH]; intros buffer skipped cmds n farm one Hloop Hin Hone Hpack.
  - by apply elem_of_nil in Hin.
  - simpl in Hloop. unfold bind in Hloop.
    destruct (save_one first) as [e1|[c|]] eqn:H1; [discriminate| |].
    + apply elem_of_cons in Hin as [->|Hin].
      * assert (c = one) as -> by congruence.
        destruct (save_loop_extends _ _ _ _ _ Hloop) as [tail ->].
        rewrite !forallb_app in Hpack.
        apply andb_true_iff in Hpack as [Hb _].
        by apply andb_true_iff in Hb as [_ Hb].
      * by eapply IH.
    + apply elem_of_cons in Hin as [->|Hin]; [congruence|]. by eapply IH.
Qed.

Lemma batch_discarded (farms : list json) (st : store) (farm : json) :
  farm ∈ farms → unwritable farm →
  save_farms_batch farms st = (mkCounts 0 (length farms), st).
Proof.
  intros Hin Hbad. unfold save_farms_batch, bind, ret.
  destruct (save_loop farms [] 0) as [e|[cmds n]] eqn:Hloop; [done|].
  destruct Hbad as [[e He]|(one & Hone & Hpack)].
  - destruct (save_loop_raises farms [] 0 e farm Hin He) as [e' He']. congruence.
  - simpl. unfold execute.
    destruct (forallb packable cmds) eqn:Hall; [|done].
    pose proof (save_loop_buffer _ _ _ _ _ _ _ Hloop Hin Hone Hall). congruence.
Qed.

(** X3. One record that cannot be written discards the whole batch:
    [save_farms_batch] leaves the store as it was and reports no success
    and [len(farms)] failures, whatever the other records are. *)
Theorem batch_all_or_nothing (farms : list json) (st : store) (farm : json) :
  farm ∈ farms → unwritable farm →
  save_farms_batch farms st = (mkCounts 0 (length farms), st).
Proof. apply batch_discarded. Qed.

Lemma batch_all_or_nothing_sample :
  bad_record ∈ [good_record; bad_record]
  ∧ unwritable bad_record
  ∧ save_farms_batch [good_record; bad_record] empty_store
    = (mkCounts 0 2, empty_store).
Proof.
  assert (bad_record ∈ [good_record; bad_record]) as Hin by (do 2 constructor).
  assert (unwritable bad_record) as Hbad by (left; by exists AttributeError).
  split; [exact Hin|]. split; [exact Hbad|].
  exact (batch_all_or_nothing [good_record; bad_record] empty_store bad_record Hin Hbad).
Defined.


Lemma save_farm_written farm cmds st :
  save_one farm = inr (Some cmds) → forallb packable cmds = true →
  save_farm farm st = inr (true, fold_left apply_command cmds st).
Proof.
  intros Hone Hpack. unfold save_farm, bind, ret, execute. by rewrite Hone, Hpack.
Qed.

Lemma save_farm_skipped farm st :
  save_one farm = inr None → save_farm farm st = inr (false, st).
Proof.
  intros Hone. unfold save_farm, bind, ret. by rewrite Hone.
Qed.

Lemma save_each_loop farms : ∀ buffer skipped cmds n st0,
  save_loop farms buffer skipped = inr (cmds, n) →
  forallb packable cmds = true →
  save_each farms (fold_left apply_command buffer st0)
  = inr (fold_left apply_command cmds st0).
Proof.
  induction farms as [|first rest IH]; intros buffer skipped cmds n st0; simpl.
  - unfold ret. by intros [= <- <-].
  - unfold bind. destruct (save_one first) as [e|[c|]] eqn:Hone; [discriminate| |];
      intros Hloop Hpack.
    + destruct (save_loop_extends _ _ _ _ _ Hloop) as [tail Htail].
      assert (forallb packable c = true) as Hc.
      { rewrite Htail, !forallb_app in Hpack.
        apply andb_true_iff in Hpack as [Hb _].
        by apply andb_true_iff in Hb as [_ Hb]. }
      rewrite (save_farm_written _ _ _ Hone Hc). simpl.
      rewrite <- fold_left_app. by eapply IH.
    + rewrite (save_farm_skipped _ _ Hone). simpl. by eapply IH.
Qed.

Lemma save_loop_skipped farms : ∀ buffer skipped cmds n,
  save_loop farms buffer skipped = inr (cmds, n) →
  forallb packable cmds = true →
  n + length (omap member_of farms) = skipped + length farms.
Proof.
  induction farms as [|first rest IH]; intros buffer skipped cmds n; simpl.
  - unfold ret. intros [= <- <-] _. lia.
  - unfold bind. destruct (save_one first) as [e|[c|]] eqn:Hone; [discriminate| |];
      intros Hloop Hpack.
    + destruct (save_loop_extends _ _ _ _ _ Hloop) as [tail Htail].
      assert (forallb packable c = true) as Hc.
      { rewrite Htail, !forallb_app in Hpack.
        apply andb_true_iff in Hpack as [Hb _].
        by apply andb_true_iff in Hb as [_ Hb]. }
      rewrite (save_one_packable _ _ Hone) in Hc.
      apply bool_decide_eq_true in Hc as [m ->]. simpl.
      specialize (IH _ _ _ _ Hloop Hpack).
      change (list_omap json string member_of rest) with (omap member_of rest). lia.
    + rewrite (save_one_skip _ Hone). simpl.
      specialize (IH _ _ _ _ Hloop Hpack).
      change (list_omap json string member_of rest) with (omap member_of rest). lia.
Qed.

(** X4. When every record of a batch can be written, [save_farms_batch]
    leaves the store that saving the farms one after the other with
    [save_farm] leaves. *)
Theorem batch_as_one_by_one (farms : list json) (st : store) (cmds : list command)
    (n : nat) :
  save_loop farms [] 0 = inr (cmds, n) →
  forallb packable cmds = true →
  save_each farms st = inr (snd (save_farms_batch farms st)).
Proof.
  intros Hloop Hpack.
  pose proof (save_each_loop farms [] 0 cmds n st Hloop Hpack) as Heach.
  simpl in Heach. rewrite Heach.
  unfold save_farms_batch, bind, ret, execute. rewrite Hloop. simpl. by rewrite Hpack.
Qed.

Lemma batch_as_one_by_one_sample :
  save_each mixed_farms empty_store
  = inr (snd (save_farms_batch mixed_farms empty_store)).
Proof.
  destruct (save_loop mixed_farms [] 0) as [e|[cmds n]] eqn:Hloop;
    [vm_compute in Hloop; discriminate|].
  apply (batch_as_one_by_one mixed_farms empty_store cmds n Hloop).
  vm_compute in Hloop. injection Hloop as <- _. reflexivity.
Defined.

(** X5. When a batch is written, the success count of [save_farms_batch]
    is [len(farms)] and the failure count is the number of records without
    an id: such a record is counted in both. *)
Theorem batch_counts (farms : list json) (st : store) (cmds : list command) (n : nat) :
  save_loop farms [] 0 = inr (cmds, n) →
  forallb packable cmds = true →
  success (fst (save_farms_batch farms st)) = length farms
  ∧ failed (fst (save_farms_batch farms st))
    = length farms - length (omap member_of farms).
Proof.
  intros Hloop Hpack.
  pose proof (save_loop_skipped farms [] 0 cmds n Hloop Hpack) as Hn.
  unfold save_farms_batch, bind, ret, execute. rewrite Hloop. simpl.
  rewrite Hpack. simpl. split; [done|]. lia.
Qed.

Lemma batch_counts_sample :
  fst (save_farms_batch mixed_farms empty_store) = mkCounts 4 1.
Proof.
  destruct (save_loop mixed_farms [] 0) as [e|[cmds n]] eqn:Hloop;
    [vm_compute in Hloop; discriminate|].
  assert (forallb packable cmds = true) as Hpack.
  { vm_compute in Hloop. injection Hloop as <- _. reflexivity. }
  destruct (batch_counts mixed_farms empty_store cmds n Hloop Hpack) as [Hs Hf].
  destruct (fst (save_farms_batch mixed_farms empty_store)) as [s f].
  simpl in Hs, Hf. by rewrite Hs, Hf.
Defined.


(** X6. [save_farms_batch] only ever adds: every id of a set before the
    call is in that set after it, in whichever set it was, and the failed
    set is as before. A farm that was waiting and is saved again with its
    description is then in both status sets. *)
Theorem batch_only_adds (farms : list json) (st : store) :
  let st' := snd (save_farms_batch farms st) in
  farms_all st ⊆ farms_all st'
  ∧ farms_processed st ⊆ farms_processed st'
  ∧ farms_needs_description st ⊆ farms_needs_description st'
  ∧ farms_failed st' = farms_failed st.
Proof.
  unfold save_farms_batch, bind, ret, execute.
  destruct (save_loop farms [] 0) as [e|[cmds n]] eqn:Hloop; [done|]. simpl.
  destruct (forallb packable cmds); [|done]. simpl.
  apply (save_loop_fold
           (λ _ s, farms_all st ⊆ farms_all s
                   ∧ farms_processed st ⊆ farms_processed s
                   ∧ farms_needs_description st ⊆ farms_needs_description s
                   ∧ farms_failed s = farms_failed st))
    with (farms := farms) (buffer := []) (skipped := 0) (n := n); try done.
  intros farm _ s one Hone (HA & HP & HN & HF).
  destruct (save_one_effect farm one s Hone) as [HF' H].
  rewrite HF'. destruct (member_of farm) as [m|].
  - destruct H as [-> [(_ & -> & ->)|[(_ & -> & ->)|(_ & -> & ->)]]]; set_solver.
  - destruct H as (-> & -> & ->). done.
Qed.

Example saved_again_in_both_sets :
  let st := snd (save_farms_batch
                   [JObj [("id", JStr "farm-2"); ("description", JStr "text")]]
                   pending_store) in
  "farm-2" ∈ farms_needs_description st ∧ "farm-2" ∈ farms_processed st.
Proof. split; compute_done. Qed.

(** X7. An import with one record that cannot be written empties the
    index: whatever the store held, every count of [get_pipeline_status] is
    0 afterwards, and the hashes of the farms are as before. *)
Theorem failed_import_empties (items : list json) (st : store) (farm : json) :
  farm ∈ items → unwritable farm →
  let st' := snd (import_from_json (Some (JList items)) st) in
  get_pipeline_status st' = no_farms ∧ farm_data st' = farm_data st.
Proof.
  intros Hin Hbad. simpl.
  by rewrite (batch_discarded items (clear_all_data st) farm Hin Hbad).
Qed.

Lemma failed_import_empties_sample :
  get_pipeline_status pending_store = mkStatus 1 0 0 1
  ∧ get_pipeline_status
      (snd (import_from_json (Some (JList [good_record; bad_record])) pending_store))
    = no_farms.
Proof.
  split; [by vm_compute|].
  apply (failed_import_empties [good_record; bad_record] pending_store bad_record).
  - do 2 constructor.
  - left. by exists AttributeError.
Defined.

Lemma fields_lookup (fields : list (string * json)) (k : string) :
  (list_to_map (map (λ kv, (fst kv, render (snd kv))) fields) : gmap string hval) !! k
  = render <$> dict_lookup k fields.
Proof.
  induction fields as [|[k' v] rest IH]; [done|]. simpl.
  destruct (String.eqb_spec k k') as [->|Hne].
  - by rewrite lookup_insert_eq.
  - by rewrite lookup_insert_ne.
Qed.

(** The hash a written record leaves. *)
Lemma save_one_hash fields cmds m st :
  save_one (JObj fields) = inr (Some cmds) →
  member_of (JObj fields) = Some m →
  farm_data (fold_left apply_command cmds st)
  = <["farm:" +:+ m :=
        list_to_map (farm_fields (JObj fields)) ∪ hash_at ("farm:" +:+ m) st]>
      (farm_data st).
Proof.
  unfold save_one, member_of, bind, ret, get.
  destruct (dict_lookup "id" fields) as [v|]; simpl; [|discriminate].
  destruct (truthy v); simpl; [|discriminate].
  destruct (tracking_set (JObj fields)) as [e|tr]; [discriminate|].
  intros [= <-] Hm. unfold farm_key. rewrite Hm.
  destruct tr as [[]|]; simpl; rewrite ?Hm; done.
Qed.

(** X8. [save_farm] merges into the hash of the farm: after a call that
    returns [True], every field of the record holds its rendered value,
    and every field the hash had that the record lacks is still there. *)
Theorem save_farm_merges (fields : list (string * json)) (m : string)
    (st st' : store) (k : string) :
  member_of (JObj fields) = Some m →
  save_farm (JObj fields) st = inr (true, st') →
  hash_at ("farm:" +:+ m) st' !! k
  = match dict_lookup k fields with
    | Some v => Some (render v)
    | None => hash_at ("farm:" +:+ m) st !! k
    end.
Proof.
  intros Hm. unfold save_farm, bind, ret, execute.
  destruct (save_one (JObj fields)) as [e|[cmds|]] eqn:Hone; simpl; try discriminate.
  destruct (forallb packable cmds); simpl; [|discriminate].
  intros [= <-]. unfold hash_at at 1.
  rewrite (save_one_hash _ _ _ _ Hone Hm), lookup_insert_eq. simpl.
  rewrite lookup_union, fields_lookup.
  destruct (dict_lookup k fields) as [v|]; simpl.
  - by destruct (hash_at ("farm:" +:+ m) st !! k).
  - by destruct (hash_at ("farm:" +:+ m) st !! k).
Qed.

Lemma save_farm_merges_sample :
  member_of (JObj [("id", JStr "farm-1"); ("name", JStr "Hill Farm")]) = Some "farm-1"
  ∧ ∃ st', save_farm (JObj [("id", JStr "farm-1"); ("name", JStr "Hill Farm")])
                     described_store = inr (true, st')
           ∧ hash_at "farm:farm-1" st' !! "name" = Some (Text "Hill Farm")
           ∧ hash_at "farm:farm-1" st' !! "description" = Some (Text "old text").
Proof.
  split; [reflexivity|]. eexists. split; [reflexivity|].
  split.
  - exact (save_farm_merges [("id", JStr "farm-1"); ("name", JStr "Hill Farm")]
             "farm-1" described_store _ "name" eq_refl eq_refl).
  - exact (save_farm_merges [("id", JStr "farm-1"); ("name", JStr "Hill Farm")]
             "farm-1" described_store _ "description" eq_refl eq_refl).
Defined.

Lemma import_hashes items : ∀ buffer skipped cmds n st0 key,
  save_loop items buffer skipped = inr (cmds, n) →
  forallb packable cmds = true →
  (∀ farm m, farm ∈ items → member_of farm = Some m → key ≠ "farm:" +:+ m) →
  farm_data (fold_left apply_command cmds st0) !! key
  = farm_data (fold_left apply_command buffer st0) !! key.
Proof.
  induction items as [|first rest IH]; intros buffer skipped cmds n st0 key; simpl.
  - unfold ret. by intros [= <- <-].
  - unfold bind. destruct (save_one first) as [e|[c|]] eqn:Hone; [discriminate| |];
      intros Hloop Hpack Hkey.
    + destruct (save_loop_extends _ _ _ _ _ Hloop) as [tail Htail].
      assert (forallb packable c = true) as Hc.
      { rewrite Htail, !forallb_app in Hpack.
        apply andb_true_iff in Hpack as [Hb _].
        by apply andb_true_iff in Hb as [_ Hb]. }
      rewrite (save_one_packable _ _ Hone) in Hc.
      apply bool_decide_eq_true in Hc as [m Hm].
      rewrite (IH _ _ _ _ st0 key Hloop Hpack).
      * rewrite fold_left_app.
        destruct (save_one_dict _ _ Hone) as [fields ->].
        rewrite (save_one_hash _ _ _ _ Hone Hm).
        apply lookup_insert_ne. symmetry. apply (Hkey (JObj fields)); [by left|done].
      * intros farm m' Hin. apply Hkey. by right.
    + apply (IH _ _ _ _ st0 key Hloop Hpack).
      intros farm m' Hin. apply Hkey. by right.
Qed.

(** X9. An import deletes no hash: the hash under every key that is not
    the key of a record of the snapshot is after the import what it was
    before, also for farms the index no longer knows. *)
Theorem import_keeps_other_hashes (items : list json) (st : store) (key : string) :
  (∀ farm m, farm ∈ items → member_of farm = Some m → key ≠ "farm:" +:+ m) →
  farm_data (snd (import_from_json (Some (JList items)) st)) !! key
  = farm_data st !! key.
Proof.
  intros Hkey. simpl. unfold save_farms_batch, bind, ret, execute.
  destruct (save_loop items [] 0) as [e|[cmds n]] eqn:Hloop; [done|]. simpl.
  destruct (forallb packable cmds) eqn:Hpack; [|done]. simpl.
  by rewrite (import_hashes items [] 0 cmds n (clear_all_data st) key Hloop Hpack Hkey).
Qed.

Lemma import_keeps_other_hashes_sample :
  let st := snd (import_from_json (Some (JList [good_record])) pending_store) in
  farms_all st = {["farm-1"]}
  ∧ farm_data st !! "farm:farm-2" = farm_data pending_store !! "farm:farm-2".
Proof.
  split; [compute_done|].
  apply (import_keeps_other_hashes [good_record] pending_store "farm:farm-2").
  intros farm m Hin Hm. apply list_elem_of_singleton in Hin as ->.
  injection Hm as <-. discriminate.
Defined.


(** The partition, as equations between the sets. *)
Lemma partition_cover (st : store) :
  partition st ↔
  farms_needs_description st ## farms_processed st
  ∧ farms_needs_description st ## farms_failed st
  ∧ farms_processed st ## farms_failed st
  ∧ farms_needs_description st ∪ farms_processed st ∪ farms_failed st = farms_all st.
Proof.
  unfold partition. split.
  - intros (Hone & HNP & HNF & HPF & Hsize). repeat split; try done.
    symmetry. apply set_subseteq_size_eq.
    + intros x Hx. specialize (Hone x Hx). set_solver.
    + rewrite !size_union by set_solver. lia.
  - intros (HNP & HNF & HPF & Hall). rewrite <- Hall.
    split; [|split; [done|split; [done|split; [done|]]]].
    + intros x Hx. set_solver.
    + rewrite !size_union by set_solver. lia.
Qed.

(** X10. [update_farm_description] keeps the partition for a farm that is
    waiting or processed: if every known id is in exactly one status set
    before the call, so it is after it. *)
Theorem update_keeps_partition (farm_id description now : string) (st : store) :
  partition st →
  farm_id ∈ farms_needs_description st ∪ farms_processed st →
  partition (snd (update_farm_description (JStr farm_id) description now st)).
Proof.
  intros Hpart Hin. apply partition_cover in Hpart as (HNP & HNF & HPF & Hall).
  apply partition_cover.
  destruct (update_sets farm_id description now st) as (-> & -> & -> & ->).
  rewrite <- Hall. split; [|split; [|split]].
  - set_solver.
  - set_solver.
  - assert (farm_id ∉ farms_failed st) by set_solver. set_solver.
  - apply set_eq. intros x. destruct (decide (x = farm_id)) as [->|]; set_solver.
Qed.

Lemma update_keeps_partition_sample :
  partition pending_store
  ∧ partition (snd (update_farm_description (JStr "farm-2") "text" "2025-01-01"
                                            pending_store)).
Proof.
  assert (partition pending_store) as Hp.
  { apply partition_cover. repeat split; compute_done. }
  split; [exact Hp|].
  apply (update_keeps_partition "farm-2" "text" "2025-01-01" pending_store Hp).
  compute_done.
Defined.

(** An id outside the known ones breaks it. *)
Example update_unknown_breaks_partition :
  partition empty_store
  ∧ ¬ partition (snd (update_farm_description (JStr "ghost") "text" "2025-01-01"
                                              empty_store)).
Proof.
  split.
  - apply partition_cover. repeat split; compute_done.
  - intros (_ & _ & _ & _ & Hsize). vm_compute in Hsize. discriminate.
Qed.

(** X11. For a farm that is waiting, [update_farm_description] moves one
    unit from the needs-description count of [get_pipeline_status] to the
    processed count and leaves the total and the failed count. *)
Theorem update_moves_one (farm_id description now : string) (st : store) :
  farm_id ∈ farms_needs_description st →
  farm_id ∉ farms_processed st →
  let before := get_pipeline_status st in
  let after := get_pipeline_status
                 (snd (update_farm_description (JStr farm_id) description now st)) in
  total_farms after = total_farms before
  ∧ processed_farms after = S (processed_farms before)
  ∧ S (needs_description after) = needs_description before
  ∧ failed_farms after = failed_farms before.
Proof.
  intros HN HP.
  pose proof (update_sets farm_id description now st) as Hsets. cbn zeta in Hsets.
  destruct Hsets as (HP' & HN' & HA' & HF').
  unfold get_pipeline_status, scard. cbn [total_farms processed_farms failed_farms
    needs_description smembers]. rewrite HP', HN', HA', HF'.
  split; [done|]. split; [|split; [|done]].
  - rewrite size_union by set_solver. by rewrite size_singleton.
  - rewrite size_difference by set_solver. rewrite size_singleton.
    assert (size (farms_needs_description st) ≠ 0); [|lia].
    apply size_non_empty_iff. set_solver.
Qed.

Lemma update_moves_one_sample :
  get_pipeline_status pending_store = mkStatus 1 0 0 1
  ∧ processed_farms
      (get_pipeline_status
         (snd (update_farm_description (JStr "farm-2") "text" "2025-01-01"
                                       pending_store))) = 1.
Proof.
  split; [by vm_compute|].
  destruct (update_moves_one "farm-2" "text" "2025-01-01" pending_store)
    as (_ & Hp & _); [compute_done|compute_done|].
  exact Hp.
Defined.

(** X12. The last description wins: two calls of
    [update_farm_description] for one id leave the store that the second
    call alone leaves, for every id, also one the client refuses. *)
Theorem update_last_wins (farm_id : json) (d1 t1 d2 t2 : string) (st : store) :
  snd (update_farm_description farm_id d2 t2
         (snd (update_farm_description farm_id d1 t1 st)))
  = snd (update_farm_description farm_id d2 t2 st).
Proof.
  unfold update_farm_description, execute. simpl.
  destruct (redis_encode farm_id) as [m|] eqn:Hm; simpl; [|done].
  unfold set_hash, set_members, hash_at. simpl.
  rewrite !lookup_insert_eq. simpl.
  f_equal.
  - rewrite !insert_insert_eq. f_equal.
    apply map_eq. intros k.
    destruct (decide (k = "updatedAt")) as [->|]; [by rewrite !lookup_insert_eq|].
    rewrite !(lookup_insert_ne _ "updatedAt") by done.
    destruct (decide (k = "description")) as [->|]; [by rewrite !lookup_insert_eq|].
    by repeat (rewrite lookup_insert_ne by done).
  - set_solver.
  - set_solver.
Qed.

End StorageOpsFacts.

(* ===================================================================== *)
(** * Properties of the workflow on the file *)
(* ===================================================================== *)

Module FileWorkflowFacts.
Import Py Storage FileWorkflow.
Local Open Scope py_scope.

Lemma usable_website_default (w : option json) :
  usable_website (default JNull w) = usable_website (default (JStr "") w).
Proof. by destruct w. Qed.

(** X13. The file workflow and the store agree on the farms that wait:
    whenever the test of [get_farms_needing_descriptions] answers for a
    farm, the test of [save_farms_batch] answers too, and the farm is
    selected exactly when the store would put it into the
    needs-description set. *)
Theorem needs_description_agrees (farm : json) (b : bool) :
  needs_description farm = inr b →
  ∃ k, tracking_set farm = inr k
       ∧ (b = true ↔ k = Some FARMS_NEEDS_DESCRIPTION).
Proof.
  unfold needs_description, tracking_set, bind, ret.
  destruct farm as [| | | | |fields]; try discriminate. simpl.
  destruct (default (JObj []) (dict_lookup "contact" fields)) as [| | | | |contact];
    try discriminate. simpl.
  rewrite <- usable_website_default.
  destruct (usable_website (default JNull (dict_lookup "website" contact)))
    as [e|ok]; [discriminate|].
  intros [= <-].
  destruct (truthy (default JNull (dict_lookup "description" fields))).
  - exists (Some FARMS_PROCESSED). rewrite andb_false_r. split; [done|].
    split; discriminate.
  - rewrite andb_true_r. destruct ok.
    + by exists (Some FARMS_NEEDS_DESCRIPTION).
    + exists None. split; [done|]. split; discriminate.
Qed.

Lemma needs_description_agrees_sample :
  needs_description StorageOps.pending_record = inr true
  ∧ tracking_set StorageOps.pending_record = inr (Some FARMS_NEEDS_DESCRIPTION).
Proof.
  assert (needs_description StorageOps.pending_record = inr true) as H by reflexivity.
  split; [exact H|].
  destruct (needs_description_agrees StorageOps.pending_record true H) as (k & Hk & Hb).
  rewrite Hk. f_equal. by apply Hb.
Defined.

Lemma dict_lookup_set (k : string) (v : json) (fields : list (string * json)) :
  dict_lookup k (dict_set k v fields) = Some v.
Proof.
  induction fields as [|[k' v'] rest IH]; simpl.
  - by rewrite String.eqb_refl.
  - destruct (String.eqb k k') eqn:E; simpl; rewrite E; [done|exact IH].
Qed.

Lemma dict_lookup_set_other (k k' : string) (v : json) (fields : list (string * json)) :
  k ≠ k' → dict_lookup k' (dict_set k v fields) = dict_lookup k' fields.
Proof.
  intros Hne. induction fields as [|[k0 v0] rest IH]; simpl.
  - destruct (String.eqb_spec k' k); [congruence|done].
  - destruct (String.eqb_spec k k0) as [->|]; simpl.
    + destruct (String.eqb_spec k' k0); [congruence|done].
    + destruct (String.eqb_spec k' k0); [done|exact IH].
Qed.

(** X14. [update_farm_description] on the list keeps its length; when it
    returns [False] the list is as before and no farm has the id; it
    returns [True] exactly when some farm has the id. *)
Theorem update_list_unchanged (farms : list json) (farm_id description now : string) :
  ∀ (ok : bool) (farms' : list json),
  update_farm_description farms farm_id description now = inr (ok, farms') →
  length farms' = length farms
  ∧ (ok = false → farms' = farms)
  ∧ (ok = true ↔ is_Some (first_with_id farm_id farms)).
Proof.
  induction farms as [|farm rest IH]; intros ok farms'; simpl.
  - unfold ret. intros [= <- <-]. split; [done|]. split; [done|].
    split; [done|]. by intros [? ?].
  - unfold bind, ret, get. destruct farm as [| | | | |fields]; try discriminate.
    simpl. destruct (id_is farm_id (dict_lookup "id" fields)).
    + intros [= <- <-]. split; [done|]. split; [done|]. split; [by eexists|done].
    + destruct (update_farm_description rest farm_id description now)
        as [e|[ok1 rest1]]; [discriminate|].
      simpl. intros [= <- <-].
      destruct (IH ok1 rest1 eq_refl) as (Hlen & Hsame & Hok).
      split; [simpl; by rewrite Hlen|]. split; [|done].
      intros H. by rewrite (Hsame H).
Qed.

Lemma update_list_unchanged_sample :
  update_farm_description two_farms "farm-7" "text" "2025-01-01" = inr (false, two_farms)
  ∧ first_with_id "farm-7" two_farms = None.
Proof.
  assert (update_farm_description two_farms "farm-7" "text" "2025-01-01"
          = inr (false, two_farms)) as H by reflexivity.
  split; [exact H|].
  destruct (update_list_unchanged two_farms "farm-7" "text" "2025-01-01" _ _ H)
    as (_ & _ & Hok).
  destruct (first_with_id "farm-7" two_farms) eqn:E; [|done].
  assert (false = true) by (apply Hok; by eexists). discriminate.
Defined.

(** X15. After [update_farm_description] on the list returns [True], the
    first farm with the id carries the description and the time of the
    update, and each of its other fields is what the first farm with the id
    had before. *)
Theorem update_list_round_trip (farms : list json) (farm_id description now : string) :
  ∀ farms' : list json,
  update_farm_description farms farm_id description now = inr (true, farms') →
  ∃ fields fields',
    first_with_id farm_id farms = Some (JObj fields)
    ∧ first_with_id farm_id farms' = Some (JObj fields')
    ∧ dict_lookup "description" fields' = Some (JStr description)
    ∧ dict_lookup "updatedAt" fields' = Some (JStr now)
    ∧ ∀ k, k ≠ "description" → k ≠ "updatedAt" →
           dict_lookup k fields' = dict_lookup k fields.
Proof.
  induction farms as [|farm rest IH]; intros farms'; simpl.
  - unfold ret. discriminate.
  - unfold bind, ret, get. destruct farm as [| | | | |fields]; try discriminate.
    simpl. destruct (id_is farm_id (dict_lookup "id" fields)) eqn:Hid.
    + intros [= <-]. eexists fields, _. split; [done|]. simpl.
      rewrite !dict_lookup_set_other by done. rewrite Hid.
      split; [done|]. split; [|split].
      * rewrite dict_lookup_set_other by done. apply dict_lookup_set.
      * apply dict_lookup_set.
      * intros k H1 H2. by rewrite !dict_lookup_set_other.
    + destruct (update_farm_description rest farm_id description now)
        as [e|[ok1 rest1]]; [discriminate|].
      simpl. intros [= -> <-].
      destruct (IH rest1 eq_refl) as (f & f' & H1 & H2 & H3).
      exists f, f'. simpl. by rewrite Hid.
Qed.

Lemma update_list_round_trip_sample :
  ∃ farms', update_farm_description two_farms "farm-2" "text" "2025-01-01"
            = inr (true, farms')
            ∧ ∃ fields', first_with_id "farm-2" farms' = Some (JObj fields')
                         ∧ dict_lookup "description" fields' = Some (JStr "text").
Proof.
  eexists. split; [reflexivity|].
  destruct (update_list_round_trip two_farms "farm-2" "text" "2025-01-01" _ eq_refl)
    as (fields & fields' & _ & H2 & H3 & _).
  exists fields'. split; [exact H2|exact H3].
Defined.

(** X16. A farm that [update_farm_description] has written with a
    non-empty description is no longer selected by
    [get_farms_needing_descriptions]. *)
Theorem described_farm_not_selected (fields : list (string * json))
    (description now : string) (b : bool) :
  description ≠ "" →
  needs_description
    (JObj (dict_set "updatedAt" (JStr now)
             (dict_set "description" (JStr description) fields))) = inr b →
  b = false.
Proof.
  intros Hd. unfold needs_description, bind, ret. simpl.
  destruct (default (JObj []) _) as [| | | | |contact]; try discriminate. simpl.
  destruct (usable_website _) as [e|ok]; [discriminate|].
  rewrite dict_lookup_set_other by done. rewrite dict_lookup_set. simpl.
  destruct (String.eqb_spec description ""); [done|]. simpl.
  rewrite andb_false_r. by intros [= <-].
Qed.

Lemma described_farm_not_selected_sample :
  needs_description
    (JObj (dict_set "updatedAt" (JStr "2025-01-01")
             (dict_set "description" (JStr "text")
                [("id", JStr "farm-2");
                 ("contact", JObj [("website", JStr "http://hill.example")])])))
  = inr false.
Proof.
  destruct (needs_description _) as [e|b] eqn:H; [vm_compute in H; discriminate|].
  f_equal.
  apply (described_farm_not_selected _ "text" "2025-01-01" b) in H; [exact H|discriminate].
Defined.

(** An empty description leaves the farm selected. *)
Example empty_description_still_selected :
  needs_description
    (JObj (dict_set "updatedAt" (JStr "2025-01-01")
             (dict_set "description" (JStr "")
                [("id", JStr "farm-2");
                 ("contact", JObj [("website", JStr "http://hill.example")])])))
  = inr true.
Proof. reflexivity. Qed.

(** X17. In [check_progress] no farm is counted both as described and as
    waiting, and the two counts add up to at most the number of farms. *)
Theorem described_and_waiting_apart (farms : list json) :
  ∀ described waiting : list json,
  farms_with_descriptions farms = inr described →
  get_farms_needing_descriptions farms = inr waiting →
  length described + length waiting <= length farms
  ∧ ∀ farm, farm ∈ described → farm ∈ waiting → False.
Proof.
  assert (∀ fs described, farms_with_descriptions fs = inr described →
            ∀ farm, farm ∈ described →
              ∃ d, get farm "description" = inr d ∧ truthy (default JNull d) = true)
    as Hdesc.
  { induction fs as [|f rest IH]; intros described; simpl.
    - unfold ret. intros [= <-] farm Hin. by apply elem_of_nil in Hin.
    - unfold bind, ret. destruct (get f "description") as [e|d] eqn:Hd; [discriminate|].
      destruct (farms_with_descriptions rest) as [e|others]; [discriminate|].
      destruct (truthy (default JNull d)) eqn:Ht; intros [= <-] farm Hin.
      + apply elem_of_cons in Hin as [->|Hin]; [by exists d|by eapply IH].
      + by eapply IH. }
  assert (∀ fs waiting, get_farms_needing_descriptions fs = inr waiting →
            ∀ farm, farm ∈ waiting → needs_description farm = inr true) as Hwait.
  { induction fs as [|f rest IH]; intros waiting; simpl.
    - unfold ret. intros [= <-] farm Hin. by apply elem_of_nil in Hin.
    - unfold bind, ret. destruct (needs_description f) as [e|b] eqn:Hb; [discriminate|].
      destruct (get_farms_needing_descriptions rest) as [e|others]; [discriminate|].
      destruct b; intros [= <-] farm Hin.
      + apply elem_of_cons in Hin as [->|Hin]; [done|by eapply IH].
      + by eapply IH. }
  intros described waiting Hd Hw. split.
  - revert described waiting Hd Hw.
    induction farms as [|f rest IH]; intros described waiting; simpl.
    + unfold ret. by intros [= <-] [= <-].
    + unfold bind, ret.
      destruct (get f "description") as [e|d] eqn:Hget; [discriminate|].
      destruct (farms_with_descriptions rest) as [e|others]; [discriminate|].
      destruct (needs_description f) as [e|b] eqn:Hb; [discriminate|].
      destruct (get_farms_needing_descriptions rest) as [e|others']; [discriminate|].
      specialize (IH others others' eq_refl eq_refl).
      destruct (truthy (default JNull d)) eqn:Ht; intros [= <-] [= <-].
      * assert (b = false) as ->; [|simpl; lia].
        unfold needs_description, bind, ret in Hb.
        destruct (get_default f "contact" _) as [|c]; [discriminate|].
        destruct (get c "website"); [discriminate|].
        rewrite Hget in Hb. destruct (usable_website _); [discriminate|].
        rewrite Ht, andb_false_r in Hb. congruence.
      * destruct b; simpl; lia.
  - intros farm H1 H2.
    destruct (Hdesc _ _ Hd farm H1) as (d & Hget & Ht).
    pose proof (Hwait _ _ Hw farm H2) as Hn.
    unfold needs_description, bind, ret in Hn.
    destruct (get_default farm "contact" _) as [|c]; [discriminate|].
    destruct (get c "website"); [discriminate|].
    rewrite Hget in Hn. destruct (usable_website _); [discriminate|].
    rewrite Ht, andb_false_r in Hn. discriminate.
Qed.

Lemma described_and_waiting_apart_sample :
  ∃ described waiting,
    farms_with_descriptions two_farms = inr described
    ∧ get_farms_needing_descriptions two_farms = inr waiting
    ∧ length described + length waiting <= length two_farms.
Proof.
  eexists _, _. split; [reflexivity|]. split; [reflexivity|].
  exact (proj1 (described_and_waiting_apart two_farms _ _ eq_refl eq_refl)).
Defined.

End FileWorkflowFacts.

(* ===================================================================== *)
(** * Properties of runs of the rate limiter *)
(* ===================================================================== *)

Module RateLimitRunsFacts.
Import Py RateLimit RateLimitRuns RateLimitFacts.
Local Open Scope py_scope.
Local Open Scope Q_scope.

(** What a turn does to the bucket: the refill adds at most the elapsed
    time at the steady rate, a grant takes the request. *)
Lemma attempt_tokens now n l r :
  attempt now n l = inr r →
  match r with
  | Granted l2 =>
      inject_Z n + tokens l2 <= tokens l + (now - last_update l) * rate l
      ∧ inject_Z n <= tokens l2 + inject_Z n
      ∧ last_update l2 = now ∧ max_requests l2 = max_requests l
      ∧ time_window l2 = time_window l ∧ burst_size l2 = burst_size l
  | Sleep _ l2 =>
      tokens l2 <= tokens l + (now - last_update l) * rate l
      ∧ tokens l2 < inject_Z n
      ∧ last_update l2 = now ∧ max_requests l2 = max_requests l
      ∧ time_window l2 = time_window l ∧ burst_size l2 = burst_size l
  end.
Proof.
  unfold attempt, refill, bind, ret, py_div, raise, rate.
  destruct (Qeq_bool (time_window l) 0); [discriminate|]. simpl.
  set (t := py_min _ _).
  assert (t <= tokens l + (now - last_update l) * (inject_Z (max_requests l) / time_window l))
    as Ht.
  { unfold t. destruct (py_min_cases (inject_Z (burst_size l))
      (tokens l + (now - last_update l) * (inject_Z (max_requests l) / time_window l)))
      as [[H ->]|[H ->]]; lra. }
  destruct (Qle_bool (inject_Z n) t) eqn:Hle.
  - intros [= <-]. simpl. apply Qle_bool_iff in Hle. repeat split; try done; lra.
  - destruct (Qeq_bool (inject_Z (max_requests l)) 0); [discriminate|].
    intros [= <-]. simpl. repeat split; try done.
    apply Qnot_le_lt. intros H. apply Qle_bool_iff in H. congruence.
Qed.

Lemma rate_nonneg l : (0 <= max_requests l)%Z → 0 < time_window l → 0 <= rate l.
Proof.
  intros Hm Ht. unfold rate. apply div_nonneg; [|done].
  change 0 with (inject_Z 0). by rewrite <- Zle_Qle.
Qed.

(** X19. A run of turns hands out no more than the bucket held at the
    start plus the steady rate times the time that has passed: for a
    valid limiter with tokens within [[0, burst_size]], positive requests
    and clock readings that never go back, no turn raises and
    [granted <= tokens + elapsed * max_requests / time_window]. *)
Theorem granted_within_rate (turns : list (Q * Z)) : ∀ l : limiter,
  valid_config l →
  within_bounds l →
  nondecreasing (last_update l) (map fst turns) →
  Forall (λ t, (0 < snd t)%Z) turns →
  ∃ s, serve turns l = inr s
       ∧ within_bounds (final s)
       ∧ inject_Z (granted s) + tokens (final s)
         <= tokens l + (last_update (final s) - last_update l) * rate l
       ∧ inject_Z (granted s)
         <= tokens l + (last_update (final s) - last_update l) * rate l.
Proof.
  induction turns as [|[now n] later IH]; intros l Hv Hb Hclock Hreq.
  - exists (mkServed 0 0 l). simpl. pose proof Hb as [Hlo Hhi].
    assert ((last_update l - last_update l) * rate l == 0) as Hz by ring.
    change (inject_Z 0) with 0.
    split; [done|]. split; [done|]. split; lra.
  - simpl in Hclock. destruct Hclock as [Hnow Hlater].
    apply Forall_cons in Hreq as [Hn Hreq]. simpl in Hn.
    destruct (attempt_valid now n l Hv Hnow Hb Hn) as (l1 & r & Hre & Hb1 & Hat & Hr).
    pose proof (attempt_tokens _ _ _ _ Hat) as Htok.
    simpl. unfold bind, ret. rewrite Hat.
    destruct r as [l2|w l2].
    + destruct Hr as (Hv2 & Hb2 & Ht2 & Hbs).
      destruct Htok as (Hsum & _ & _ & Hm2 & Htw2 & _).
      destruct (IH l2 Hv2 Hb2) as (s & -> & Hbf & Hs & _); [by rewrite Ht2|done|].
      eexists. split; [done|]. simpl. split; [done|].
      assert (rate l2 = rate l) as Hrate by (unfold rate; by rewrite Hm2, Htw2).
      rewrite Hrate, Ht2 in Hs. rewrite inject_Z_plus.
      destruct Hbf as [Hf0 _]. split; lra.
    + destruct Hr as (-> & Hv2 & Ht2 & Hbs).
      destruct Htok as (Hsum & _ & _ & Hm2 & Htw2 & _).
      destruct (IH l1 Hv2 Hb1) as (s & -> & Hbf & Hs & _); [by rewrite Ht2|done|].
      eexists. split; [done|]. simpl. split; [done|].
      assert (rate l1 = rate l) as Hrate by (unfold rate; by rewrite Hm2, Htw2).
      rewrite Hrate, Ht2 in Hs.
      destruct Hbf as [Hf0 _]. split; lra.
Qed.

Lemma granted_within_rate_sample :
  ∃ s, serve busy_turns deepseek_limiter = inr s
       ∧ inject_Z (granted s)
         <= tokens deepseek_limiter
            + (last_update (final s) - last_update deepseek_limiter) * rate deepseek_limiter.
Proof.
  destruct (granted_within_rate busy_turns deepseek_limiter) as (s & Hs & _ & _ & Hle).
  - by vm_compute.
  - split; by vm_compute.
  - repeat split; by vm_compute.
  - repeat constructor.
  - exists s. split; [exact Hs|exact Hle].
Defined.

(** X20. The burst is honoured: requests that add up to no more than the
    tokens in the bucket are all granted without a sleep, whatever the
    steady rate (also zero) and however close the clock readings. *)
Theorem burst_without_sleep (turns : list (Q * Z)) : ∀ l : limiter,
  (0 <= max_requests l)%Z → 0 < time_window l →
  nondecreasing (last_update l) (map fst turns) →
  Forall (λ t, (0 <= snd t)%Z) turns →
  inject_Z (requested turns) <= tokens l →
  tokens l <= inject_Z (burst_size l) →
  ∃ s, serve turns l = inr s ∧ sleeps s = 0%nat ∧ granted s = requested turns.
Proof.
  induction turns as [|[now n] later IH]; intros l Hm Htw Hclock Hreq Hsum Hcap.
  - by eexists.
  - simpl in Hclock. destruct Hclock as [Hnow Hlater].
    apply Forall_cons in Hreq as [Hn Hreq]. simpl in Hn, Hsum.
    rewrite inject_Z_plus in Hsum.
    assert (0 <= inject_Z n) as Hn' by (change 0 with (inject_Z 0); by rewrite <- Zle_Qle).
    assert (0 <= inject_Z (requested later)) as Hrest.
    { change 0 with (inject_Z 0). rewrite <- Zle_Qle.
      clear -Hreq. induction later as [|[? k] later IH]; simpl; [done|].
      apply Forall_cons in Hreq as [? ?]. simpl in *. specialize (IH ltac:(done)). lia. }
    pose proof (rate_nonneg l Hm Htw) as Hrate. unfold rate in Hrate.
    assert (0 <= (now - last_update l) * (inject_Z (max_requests l) / time_window l)) as Hre
      by (apply Qmult_le_0_compat; lra).
    simpl. unfold attempt, refill, bind, ret. rewrite py_div_defined by lra. simpl.
    set (t := py_min _ _).
    assert (tokens l <= t ∧ t <= inject_Z (burst_size l)) as [Ht1 Ht2].
    { unfold t. destruct (py_min_cases (inject_Z (burst_size l))
        (tokens l + (now - last_update l) * (inject_Z (max_requests l) / time_window l)))
        as [[H' ->]|[H' ->]]; lra. }
    assert (inject_Z n <= t) as Hle by lra.
    apply Qle_bool_iff in Hle. rewrite Hle.
    destruct (IH (with_tokens (t - inject_Z n)
                    (mkLimiter (max_requests l) (time_window l) (burst_size l) t now)))
      as (s & -> & Hsl & Hgr); simpl; try done; try lra.
    eexists. split; [done|]. simpl. split; [done|]. by rewrite Hgr.
Qed.

Lemma burst_without_sleep_sample :
  ∃ s, serve single_requests (with_tokens 4 deepseek_limiter) = inr s
       ∧ sleeps s = 0%nat ∧ granted s = 4%Z.
Proof.
  apply (burst_without_sleep single_requests (with_tokens 4 deepseek_limiter)).
  - by vm_compute.
  - reflexivity.
  - repeat split; by vm_compute.
  - repeat constructor; by vm_compute.
  - by vm_compute.
  - by vm_compute.
Defined.

End RateLimitRunsFacts.

(* ===================================================================== *)
(** * Properties of runs of the retry wrappers *)
(* ===================================================================== *)

Module RetryRunsFacts.
Import Py RateLimit Retry RetryContext RetryRuns RateLimitFacts.
Local Open Scope Q_scope.

Lemma backoff_bounds (attempt : nat) (base_delay max_delay u : Q) :
  0 <= base_delay → 0 <= max_delay → 0 <= u → u <= 1 →
  0 <= exponential_backoff attempt base_delay max_delay true u
  ∧ exponential_backoff attempt base_delay max_delay true u <= max_delay * (5 # 4).
Proof.
  intros Hb Hm Hu0 Hu1. unfold exponential_backoff, uniform.
  set (delay := py_min _ _).
  assert (0 <= delay ∧ delay <= max_delay) as [Hd0 Hd1].
  { unfold delay.
    assert (0 <= base_delay * inject_Z (2 ^ Z.of_nat attempt)).
    { apply Qmult_le_0_compat; [done|]. change 0 with (inject_Z 0).
      rewrite <- Zle_Qle. apply Z.pow_nonneg. lia. }
    destruct (py_min_cases (base_delay * inject_Z (2 ^ Z.of_nat attempt)) max_delay)
      as [[H' ->]|[H' ->]]; lra. }
  assert (0 <= delay * u) by (apply Qmult_le_0_compat; lra).
  assert (delay * u <= delay * 1)
    by (rewrite !(Qmult_comm delay); apply Qmult_le_compat_r; lra).
  destruct (py_max_cases 0 (delay + (- (delay * (1 # 4))
               + (delay * (1 # 4) - - (delay * (1 # 4))) * u))) as [[H' ->]|[H' ->]];
    split; lra.
Qed.

Section Runs.
Context {E V : Type}.
Variable max_attempts : Z.
Variable base_delay max_delay : Q.
Variable exceptions : E → bool.
Variable on_retry : bool.
Variable func : Z → E + V.
Variable draw : Z → Q.

Local Abbreviation loop :=
  (wrapper_loop max_attempts base_delay max_delay exceptions on_retry func draw).

Lemma counts_retry attempt e delay (events : list (event E)) :
  let hook := if on_retry then [OnRetry attempt e delay] else [] in
  invocations (Called attempt :: hook ++ Slept delay :: events) = S (invocations events)
  ∧ sleeps (Called attempt :: hook ++ Slept delay :: events) = S (sleeps events)
  ∧ callbacks (Called attempt :: hook ++ Slept delay :: events)
    = ((if on_retry then 1 else 0) + callbacks events)%nat
  ∧ total_sleep (Called attempt :: hook ++ Slept delay :: events)
    = delay + total_sleep events.
Proof. unfold invocations, sleeps, callbacks. by destruct on_retry. Qed.


(** The first call that does not fail with a retryable error ends the
    loop. *)
Lemma loop_decisive (k : nat) : ∀ (i n : nat) last,
  Z.of_nat (i + n) = max_attempts → (k < n)%nat →
  (∀ j, (i <= j < i + k)%nat → ∃ e, func (Z.of_nat j) = inl e ∧ exceptions e = true) →
  match func (Z.of_nat (i + k)) with
  | inr _ => True
  | inl e => exceptions e = false
  end →
  let r := loop (map Z.of_nat (seq i n)) last in
  snd r = match func (Z.of_nat (i + k)) with inr v => Return v | inl e => Raise e end
  ∧ invocations (fst r) = S k ∧ sleeps (fst r) = k.
Proof.
  induction k as [|k IH]; intros i n last Hlen Hk Hfail Hdec r; unfold r; clear r.
  - destruct n as [|n]; [lia|]. simpl. rewrite Nat.add_0_r in Hdec |- *.
    destruct (func (Z.of_nat i)) as [e|v]; [|done]. by rewrite Hdec.
  - destruct n as [|n]; [lia|].
    change (seq i (S n)) with (i :: seq (S i) n). rewrite map_cons. cbn [wrapper_loop].
    destruct (Hfail i) as (e & -> & ->); [lia|].
    replace (Z.of_nat i =? max_attempts - 1)%Z with false by (symmetry; apply Z.eqb_neq; lia).
    replace (i + S k)%nat with (S i + k)%nat in * by lia.
    specialize (IH (S i) n (Some e) ltac:(lia) ltac:(lia)).
    cbn zeta in IH.
    destruct IH as (Hout & Hcalls & Hsl); [intros j Hj; apply Hfail; lia|done|].
    destruct (loop (map Z.of_nat (seq (S i) n)) (Some e)) as [events out].
    cbn [fst snd] in *.
    destruct (counts_retry (Z.of_nat i) e
                (exponential_backoff (Z.to_nat (Z.of_nat i)) base_delay max_delay true
                   (draw (Z.of_nat i))) events) as (-> & -> & _).
    by rewrite Hout, Hcalls, Hsl.
Qed.

Lemma loop_total_sleep (k : nat) : ∀ (i : nat) last,
  0 <= base_delay → 0 <= max_delay → (∀ a, 0 <= draw a ∧ draw a <= 1) →
  Z.of_nat (i + S k) = max_attempts →
  0 <= total_sleep (fst (loop (map Z.of_nat (seq i (S k))) last))
  ∧ total_sleep (fst (loop (map Z.of_nat (seq i (S k))) last))
    <= inject_Z (Z.of_nat k) * (max_delay * (5 # 4)).
Proof.
  intros i last Hb Hm Hdraw. revert i last.
  assert (∀ c : Z, 0 <= total_sleep [@Called E c]
                   ∧ total_sleep [@Called E c] <= inject_Z (Z.of_nat 0) * (max_delay * (5 # 4)))
    as Hone.
  { intros c. cbn [total_sleep]. change (inject_Z (Z.of_nat 0)) with 0. split; lra. }
  induction k as [|k IH]; intros i last Hlen.
  - cbn [seq map wrapper_loop]. destruct (func (Z.of_nat i)) as [e|v]; [|apply Hone].
    destruct (exceptions e); [|apply Hone].
    replace (Z.of_nat i =? max_attempts - 1)%Z with true by (symmetry; apply Z.eqb_eq; lia).
    apply Hone.
  - change (seq i (S (S k))) with (i :: seq (S i) (S k)).
    rewrite map_cons. cbn [wrapper_loop].
    assert (0 <= inject_Z (Z.of_nat (S k)) * (max_delay * (5 # 4))) as Hpos.
    { apply Qmult_le_0_compat; [|lra]. change 0 with (inject_Z 0).
      rewrite <- Zle_Qle. lia. }
    assert (∀ c : Z, 0 <= total_sleep [@Called E c]
                     ∧ total_sleep [@Called E c]
                       <= inject_Z (Z.of_nat (S k)) * (max_delay * (5 # 4))) as Hone'.
    { intros c. cbn [total_sleep]. split; lra. }
    destruct (func (Z.of_nat i)) as [e|v]; [|apply Hone'].
    destruct (exceptions e); [|apply Hone'].
    replace (Z.of_nat i =? max_attempts - 1)%Z with false by (symmetry; apply Z.eqb_neq; lia).
    specialize (IH (S i) (Some e) ltac:(lia)).
    destruct (loop (map Z.of_nat (seq (S i) (S k))) (Some e)) as [events out].
    cbn [fst snd] in *.
    destruct (counts_retry (Z.of_nat i) e
                (exponential_backoff (Z.to_nat (Z.of_nat i)) base_delay max_delay true
                   (draw (Z.of_nat i))) events) as (_ & _ & _ & ->).
    destruct (Hdraw (Z.of_nat i)) as [Hu0 Hu1].
    pose proof (backoff_bounds (Z.to_nat (Z.of_nat i)) base_delay max_delay
                  (draw (Z.of_nat i)) Hb Hm Hu0 Hu1) as [Hd0 Hd1].
    replace (Z.of_nat (S k)) with (1 + Z.of_nat k)%Z by lia.
    rewrite inject_Z_plus. change (inject_Z 1) with 1.
    destruct IH as [IH0 IH1]. split; [lra|].
    assert ((1 + inject_Z (Z.of_nat k)) * (max_delay * (5 # 4))
            == max_delay * (5 # 4) + inject_Z (Z.of_nat k) * (max_delay * (5 # 4))) as Hr
      by ring.
    lra.
Qed.

End Runs.


(** X22. The wrapper stops at the first call that returns a value or
    raises an error that is not retryable: when the calls before the call
    of number [k < max_attempts] all raise retryable errors, the wrapper
    ends as that call does, after [k + 1] calls and [k] sleeps. *)
Theorem retry_stops_at_first_answer {E V : Type} (max_attempts : Z)
    (base_delay max_delay : Q) (exceptions : E → bool) (on_retry : bool)
    (func : Z → E + V) (draw : Z → Q) (k : nat) :
  (Z.of_nat k < max_attempts)%Z →
  (∀ j, (0 <= j < Z.of_nat k)%Z → ∃ e, func j = inl e ∧ exceptions e = true) →
  match func (Z.of_nat k) with
  | inr _ => True
  | inl e => exceptions e = false
  end →
  let r := wrapper max_attempts base_delay max_delay exceptions on_retry func draw in
  snd r = match func (Z.of_nat k) with inr v => Return v | inl e => Raise e end
  ∧ invocations (fst r) = S k
  ∧ sleeps (fst r) = k.
Proof.
  intros Hk Hfail Hdec r. unfold r, wrapper, range.
  apply (loop_decisive max_attempts base_delay max_delay exceptions on_retry func draw
           k 0 (Z.to_nat max_attempts) None).
  - lia.
  - lia.
  - intros j Hj. apply Hfail. lia.
  - done.
Qed.

Lemma retry_stops_at_first_answer_sample :
  snd (wrapper 5 1 30 is_connection_error true (answers_at 3) half) = Return "page"
  ∧ invocations (fst (wrapper 5 1 30 is_connection_error true (answers_at 3) half)) = 4%nat
  ∧ sleeps (fst (wrapper 5 1 30 is_connection_error true (answers_at 3) half)) = 3%nat.
Proof.
  apply (retry_stops_at_first_answer 5 1 30 is_connection_error true (answers_at 3) half 3).
  - by vm_compute.
  - intros j Hj. exists "ConnectionError". split; [|reflexivity].
    unfold answers_at. destruct (Z.ltb_spec j 3); [done|lia].
  - exact I.
Defined.

(** X23. With non-negative delays and jitter draws in [[0, 1]], the
    wrapper sleeps for at most [(max_attempts - 1) * max_delay * 1.25]
    seconds in all. *)
Theorem retry_total_sleep {E V : Type} (max_attempts : Z) (base_delay max_delay : Q)
    (exceptions : E → bool) (on_retry : bool) (func : Z → E + V) (draw : Z → Q) :
  (1 <= max_attempts)%Z →
  0 <= base_delay → 0 <= max_delay → (∀ a, 0 <= draw a ∧ draw a <= 1) →
  let r := wrapper max_attempts base_delay max_delay exceptions on_retry func draw in
  0 <= total_sleep (fst r)
  ∧ total_sleep (fst r) <= inject_Z (max_attempts - 1) * (max_delay * (5 # 4)).
Proof.
  intros Hmax Hb Hm Hdraw r. unfold r, wrapper, range.
  destruct (Z.to_nat max_attempts) as [|k] eqn:Hk; [lia|].
  replace (max_attempts - 1)%Z with (Z.of_nat k) by lia.
  apply loop_total_sleep; try done. lia.
Qed.

Lemma retry_total_sleep_sample :
  total_sleep (fst (wrapper 5 1 30 is_connection_error false always_down half))
  <= inject_Z (5 - 1) * (30 * (5 # 4)).
Proof.
  apply (retry_total_sleep 5 1 30 is_connection_error false always_down half).
  - by vm_compute.
  - by vm_compute.
  - by vm_compute.
  - intros a. split; by vm_compute.
Defined.

(** X24. Without jitter the delay of [exponential_backoff] doubles from
    one attempt to the next until it reaches [max_delay]: for non-negative
    delays, the delay at attempt [n + 1] is the smaller of twice the delay
    at attempt [n] and [max_delay]; the jitter draw is not used. *)
Theorem backoff_doubles (attempt : nat) (base_delay max_delay u u' : Q) :
  0 <= base_delay → 0 <= max_delay →
  exponential_backoff (S attempt) base_delay max_delay false u
  == py_min (2 * exponential_backoff attempt base_delay max_delay false u') max_delay
  ∧ exponential_backoff 0 base_delay max_delay false u == py_min base_delay max_delay.
Proof.
  intros Hb Hm. unfold exponential_backoff.
  assert (inject_Z (2 ^ Z.of_nat (S attempt)) == 2 * inject_Z (2 ^ Z.of_nat attempt)) as Hpow.
  { rewrite Nat2Z.inj_succ, Z.pow_succ_r by lia. by rewrite inject_Z_mult. }
  assert (0 <= inject_Z (2 ^ Z.of_nat attempt)) as Hp.
  { change 0 with (inject_Z 0). rewrite <- Zle_Qle. apply Z.pow_nonneg. lia. }
  assert (0 <= base_delay * inject_Z (2 ^ Z.of_nat attempt)) as Hprod
    by (by apply Qmult_le_0_compat).
  assert (base_delay * inject_Z (2 ^ Z.of_nat (S attempt))
          == 2 * (base_delay * inject_Z (2 ^ Z.of_nat attempt))) as Hs
    by (rewrite Hpow; ring).
  split.
  - destruct (py_min_cases (base_delay * inject_Z (2 ^ Z.of_nat (S attempt))) max_delay)
      as [[H1 E1]|[H1 E1]]; rewrite E1;
    destruct (py_min_cases (base_delay * inject_Z (2 ^ Z.of_nat attempt)) max_delay)
      as [[H2 E2]|[H2 E2]]; rewrite E2;
    repeat match goal with
    | |- context [py_max ?a ?b] =>
        destruct (py_max_cases a b) as [[? ->]|[? ->]]
    | |- context [py_min ?a ?b] =>
        destruct (py_min_cases a b) as [[? ->]|[? ->]]
    end; lra.
  - change (2 ^ Z.of_nat 0)%Z with 1%Z. change (inject_Z 1) with 1.
    destruct (py_min_cases (base_delay * 1) max_delay) as [[H1 E1]|[H1 E1]]; rewrite E1;
    repeat match goal with
    | |- context [py_max ?a ?b] =>
        destruct (py_max_cases a b) as [[? ->]|[? ->]]
    | |- context [py_min ?a ?b] =>
        destruct (py_min_cases a b) as [[? ->]|[? ->]]
    end; lra.
Qed.

Lemma backoff_doubles_sample :
  exponential_backoff 3 1 60 false 0 == py_min (2 * exponential_backoff 2 1 60 false 1) 60.
Proof.
  apply (backoff_doubles 2 1 60 0 1); by vm_compute.
Defined.

(** X25. A [RetryContext] whose blocks keep failing with retryable
    exceptions suppresses the exception at the exit of number [j]
    (counted from 0) exactly when [j + 1 < max_attempts]: the first
    [max_attempts - 1] failures are retried and every later one is
    re-raised, since nothing resets the counter of the context. *)
Theorem context_retries_until_exhausted {E : Type} (exceptions : E → bool)
    (max_attempts : Z) (base_delay max_delay u : Q) (excs : list E) :
  Forall (λ e, exceptions e = true) excs →
  failures exceptions excs u (RetryContext max_attempts base_delay max_delay)
  = map (λ j, (Z.of_nat (S j) <? max_attempts)%Z) (seq 0 (length excs)).
Proof.
  unfold RetryContext. generalize 0%nat as attempt0.
  induction excs as [|e later IH]; intros attempt0 Hall; [done|].
  apply Forall_cons in Hall as [He Hall].
  cbn [failures length seq map]. unfold __aexit__. rewrite He.
  cbn [RetryContext.attempt RetryContext.max_attempts RetryContext.base_delay
       RetryContext.max_delay].
  destruct (Z.of_nat (S attempt0) <? max_attempts)%Z; cbn [suppress after];
    f_equal; by apply IH.
Qed.

Lemma context_retries_until_exhausted_sample :
  failures is_connection_error
    ["ConnectionError"; "ConnectionError"; "ConnectionError"; "ConnectionError"]%string
    (1 # 2) (RetryContext 3 1 60)
  = [true; true; false; false].
Proof.
  apply (context_retries_until_exhausted is_connection_error 3 1 60 (1 # 2)
           ["ConnectionError"; "ConnectionError"; "ConnectionError"; "ConnectionError"]%string).
  repeat constructor.
Defined.

End RetryRunsFacts.

(* ===================================================================== *)
(** * More properties of the batch *)
(* ===================================================================== *)

Module WorkflowOpsFacts.
Import Py Storage Workflow WorkflowOps.
Local Open Scope py_scope.

Lemma update_effect (farm_id : json) (description now : string) (st : store) :
  (∃ m, redis_encode farm_id = Some m
        ∧ fst (update_farm_description farm_id description now st) = true
        ∧ farms_processed (snd (update_farm_description farm_id description now st))
          = {[m]} ∪ farms_processed st
        ∧ farms_needs_description (snd (update_farm_description farm_id description now st))
          = farms_needs_description st ∖ {[m]}
        ∧ farms_all (snd (update_farm_description farm_id description now st)) = farms_all st
        ∧ farms_failed (snd (update_farm_description farm_id description now st))
          = farms_failed st
        ∧ farms_priority (snd (update_farm_description farm_id description now st))
          = farms_priority st)
  ∨ (redis_encode farm_id = None
     ∧ update_farm_description farm_id description now st = (false, st)).
Proof.
  unfold update_farm_description, execute. simpl.
  destruct (redis_encode farm_id) as [m|] eqn:E; simpl.
  - left. exists m. repeat split; done.
  - by right.
Qed.

Lemma batch_effect_same ids r st : batch_effect ids 0 r st r st.
Proof.
  exists ∅. unfold batch_effect. repeat split; try lia; try set_solver.
  rewrite size_empty. lia.
Qed.

Lemma batch_effect_counts ids r st r1 :
  success r1 = success r →
  (S (failed r) <= failed r1 <= S (S (failed r)))%nat →
  batch_effect ids 1 r st r1 st.
Proof.
  intros Hs Hf. exists ∅. repeat split; try lia; try set_solver.
  rewrite size_empty. lia.
Qed.

Lemma csv_step_counts env farm s g r st :
  fst (csv_step env farm s g r st) = r ∨ fst (csv_step env farm s g r st) = add_failed r.
Proof. unfold csv_step. destruct (save_to_csv env farm s g); [by right|by left]. Qed.

Lemma csv_step_store env farm s g r st : snd (csv_step env farm s g r st) = st.
Proof. unfold csv_step. by destruct (save_to_csv env farm s g). Qed.

Lemma try_block_effect env i farm farm_id website r st :
  batch_effect (from_option singleton ∅ (redis_encode farm_id)) 1 r st
    (fst (try_block env i farm farm_id website r st))
    (snd (try_block env i farm farm_id website r st)).
Proof.
  unfold try_block.
  destruct (scrape_farm_website env website) as [sections|error].
  - destruct (generate env farm sections) as [e|[description|error]].
    + simpl. apply batch_effect_counts; simpl; [done|lia].
    + destruct (update_effect farm_id description (now env i) st)
        as [(m & Hm & Hok & Hp & Hn & Ha & Hf & Hpr)|[Hm Hup]].
      * destruct (update_farm_description farm_id description (now env i) st) as [ok st1].
        simpl in Hok, Hp, Hn, Ha, Hf, Hpr. subst ok.
        rewrite csv_step_store.
        exists {[m]}. rewrite Hm. cbn [from_option].
        split; [done|]. split; [done|]. split; [done|]. split; [done|]. split; [done|].
        split; [done|]. rewrite size_singleton.
        destruct (csv_step_counts env farm (ScrapeSuccess sections) (GenSuccess description)
                    (add_success r) st1) as [-> | ->]; simpl; lia.
      * rewrite Hup. rewrite csv_step_store.
        apply batch_effect_counts;
          destruct (csv_step_counts env farm (ScrapeSuccess sections)
                      (GenSuccess description) (add_failed r) st) as [-> | ->];
          simpl; lia.
    + rewrite csv_step_store.
      apply batch_effect_counts;
        destruct (csv_step_counts env farm (ScrapeSuccess sections) (GenError error)
                    (add_failed r) st) as [-> | ->]; simpl; lia.
  - rewrite csv_step_store.
    apply batch_effect_counts;
      destruct (csv_step_counts env farm (ScrapeError error) (GenError "Scraping failed")
                  (add_failed r) st) as [-> | ->]; simpl; lia.
Qed.

Lemma batch_effect_trans ids1 ids2 ids n1 n2 r st r1 st1 r2 st2 :
  ids1 ⊆ ids → ids2 ⊆ ids →
  batch_effect ids1 n1 r st r1 st1 →
  batch_effect ids2 n2 r1 st1 r2 st2 →
  batch_effect ids (n1 + n2) r st r2 st2.
Proof.
  intros H1 H2 (m1 & Hp1 & Hn1 & Ha1 & Hf1 & Hpr1 & Hs1 & Hz1 & Hc1 & Hd1 & He1)
               (m2 & Hp2 & Hn2 & Ha2 & Hf2 & Hpr2 & Hs2 & Hz2 & Hc2 & Hd2 & He2).
  exists (m2 ∪ m1).
  split; [rewrite Hp2, Hp1; set_solver|].
  split; [rewrite Hn2, Hn1; set_solver|].
  split; [congruence|]. split; [congruence|]. split; [congruence|].
  split; [set_solver|].
  pose proof (size_union_alt m2 m1) as Hsz.
  assert (size (m1 ∖ m2) <= size m1)%nat by (apply subseteq_size; set_solver).
  split; [lia|]. split; [lia|]. split; lia.
Qed.

Lemma process_one_readable env i farm r st :
  if readable farm
  then ∃ farm_id website,
         get_default farm "id" (JStr "Unknown") = inr farm_id
         ∧ process_one env i farm r st = inr (try_block env i farm farm_id website r st)
  else process_one env i farm r st = inl AttributeError.
Proof.
  unfold readable, process_one, bind, ret.
  destruct farm as [| | | | |fields]; try done. simpl.
  destruct (dict_lookup "contact" fields) as [[| | | | |contact]|]; simpl; try done;
    by eexists _, _.
Qed.

Lemma process_loop_effect env farms : ∀ i r st r' st',
  process_loop env i farms r st = inr (r', st') →
  batch_effect (batch_ids farms) (length farms) r st r' st'.
Proof.
  induction farms as [|farm rest IH]; intros i r st r' st'; simpl.
  - intros [= <- <-]. apply batch_effect_same.
  - unfold bind.
    pose proof (process_one_readable env i farm r st) as Hone.
    destruct (readable farm).
    2:{ by rewrite Hone. }
    destruct Hone as (farm_id & website & Hid & ->).
    intros Hrest. apply IH in Hrest.
    pose proof (try_block_effect env i farm farm_id website r st) as Hstep.
    eapply (batch_effect_trans _ _ _ 1 (length rest)); [| |exact Hstep|exact Hrest].
    + unfold batch_ids. simpl. unfold batch_id at 1. rewrite Hid.
      destruct (redis_encode farm_id); simpl; set_solver.
    + unfold batch_ids. simpl. destruct (batch_id farm); simpl; set_solver.
Qed.

Lemma process_loop_csv env farms :
  (∀ farm s g, save_to_csv env farm s g = inr tt) →
  ∀ i r st r' st',
  process_loop env i farms r st = inr (r', st') →
  (success r' + failed r' = success r + failed r + length farms)%nat.
Proof.
  intros Hcsv. induction farms as [|farm rest IH]; intros i r st r' st'; simpl.
  - intros [= <- <-]. lia.
  - unfold bind.
    pose proof (process_one_readable env i farm r st) as Hone.
    destruct (readable farm).
    2:{ by rewrite Hone. }
    destruct Hone as (farm_id & website & Hid & ->).
    intros Hrest. apply IH in Hrest. rewrite Hrest.
    unfold try_block, csv_step.
    destruct (scrape_farm_website env website) as [sections|error].
    + destruct (generate env farm sections) as [e|[description|error]].
      * simpl. lia.
      * destruct (update_farm_description farm_id description (now env i) st) as [[] st1];
          rewrite Hcsv; simpl; lia.
      * rewrite Hcsv. simpl. lia.
    + rewrite Hcsv. simpl. lia.
Qed.

Lemma process_loop_readable env farms : ∀ i r st,
  if forallb readable farms
  then ∃ r' st', process_loop env i farms r st = inr (r', st')
  else process_loop env i farms r st = inl AttributeError.
Proof.
  induction farms as [|farm rest IH]; intros i r st; simpl.
  - by eexists _, _.
  - unfold bind.
    pose proof (process_one_readable env i farm r st) as Hone.
    destruct (readable farm); simpl.
    + destruct Hone as (farm_id & website & _ & ->). apply IH.
    + by rewrite Hone.
Qed.

(** X26. A batch that returns has changed the sets in one way only: a set
    of ids, all of them ids of farms of the batch (['Unknown'] for a farm
    without id) and no more of them than the successes it counts, is
    added to the processed set and removed from the needs-description
    set; the set of all ids, the failed set and the priority set are as
    before. *)
Theorem batch_moves_own_ids (env : services) (farms_batch : list json) (st st' : store)
    (r : counts) :
  process_farm_batch env farms_batch st = inr (r, st') →
  ∃ moved : gset string,
    moved ⊆ batch_ids farms_batch
    ∧ (size moved <= success r)%nat
    ∧ farms_processed st' = moved ∪ farms_processed st
    ∧ farms_needs_description st' = farms_needs_description st ∖ moved
    ∧ farms_all st' = farms_all st
    ∧ farms_failed st' = farms_failed st
    ∧ farms_priority st' = farms_priority st.
Proof.
  intros H. apply process_loop_effect in H.
  destruct H as (moved & Hp & Hn & Ha & Hf & Hpr & Hs & Hz & _).
  exists moved. simpl in Hz. repeat split; try done. lia.
Qed.

Lemma batch_moves_own_ids_sample :
  ∃ r st' (moved : gset string),
    process_farm_batch third_down five_farms five_pending = inr (r, st')
    ∧ moved ⊆ batch_ids five_farms
    ∧ farms_processed st' = moved ∪ farms_processed five_pending.
Proof.
  destruct (process_farm_batch third_down five_farms five_pending) as [e|[r st']] eqn:H;
    [vm_compute in H; discriminate|].
  destruct (batch_moves_own_ids third_down five_farms five_pending st' r H)
    as (moved & Hs & _ & Hp & _).
  exists r, st', moved. split; [reflexivity|]. split; [exact Hs|exact Hp].
Defined.

(** X27. The counts of a batch that returns: every farm is counted at
    least once and at most twice, so
    [len <= success + failed <= 2 * len] with [success <= len]; a farm
    is counted twice when writing its CSV row raises after it has been
    counted. When [save_to_csv] never raises the two counts add up to the
    number of farms. *)
Theorem batch_counts_bounds (env : services) (farms_batch : list json) (st st' : store)
    (r : counts) :
  process_farm_batch env farms_batch st = inr (r, st') →
  (success r <= length farms_batch)%nat
  ∧ (length farms_batch <= success r + failed r <= 2 * length farms_batch)%nat
  ∧ ((∀ farm s g, save_to_csv env farm s g = inr tt) →
     (success r + failed r = length farms_batch)%nat).
Proof.
  intros H. pose proof (process_loop_effect _ _ _ _ _ _ _ H) as Heff.
  destruct Heff as (moved & _ & _ & _ & _ & _ & _ & _ & Hs & _ & Hc).
  simpl in Hs, Hc. split; [lia|]. split; [lia|].
  intros Hcsv. by rewrite (process_loop_csv env farms_batch Hcsv _ _ _ _ _ H).
Qed.

Lemma batch_counts_bounds_sample :
  ∃ r st', process_farm_batch third_down five_farms five_pending = inr (r, st')
           ∧ (success r + failed r = length five_farms)%nat.
Proof.
  destruct (process_farm_batch third_down five_farms five_pending) as [e|[r st']] eqn:H;
    [vm_compute in H; discriminate|].
  exists r, st'. split; [reflexivity|].
  by apply (batch_counts_bounds third_down five_farms five_pending st' r H).
Defined.

(** One farm, described and stored, whose CSV row cannot be written, is
    counted as a success and as a failure. *)
Example farm_counted_twice :
  ∃ st', process_farm_batch csv_down one_farm five_pending = inr (mkCounts 1 1, st').
Proof. by eexists. Qed.

(** X28. [process_farm_batch] returns exactly when every farm of the
    batch is a dict whose contact, when it has one, is a dict; otherwise
    the [AttributeError] of the reads before the [try] leaves the batch,
    whatever the services answer. *)
Theorem batch_returns_iff_readable (env : services) (farms_batch : list json) (st : store) :
  if forallb readable farms_batch
  then ∃ r st', process_farm_batch env farms_batch st = inr (r, st')
  else process_farm_batch env farms_batch st = inl AttributeError.
Proof. apply process_loop_readable. Qed.

(** A contact that is [null] in the data stops the batch. *)
Example null_contact_stops_batch :
  process_farm_batch third_down (five_farms ++ [null_contact]) five_pending
  = inl AttributeError.
Proof. reflexivity. Qed.

End WorkflowOpsFacts.

(* ===================================================================== *)
(** * Properties of the batches of [main] *)
(* ===================================================================== *)

Module BatchesFacts.
Import Py Batches.

Lemma chunks_concat {A} (l : list A) (c : nat) :
  concat (map (λ k, take 20 (drop (k * 20) l)) (seq 0 c)) = take (c * 20) l.
Proof.
  induction c as [|c IH]; [done|].
  rewrite seq_S, map_app, concat_app, IH. cbn [map concat Nat.add]. rewrite app_nil_r.
  replace (S c * 20)%nat with (c * 20 + 20)%nat by lia.
  by rewrite take_take_drop.
Qed.

Lemma batch_loop_no_break {A} (farms : list A) (max_batches : Z) (c : nat) : ∀ (i : nat),
  (Z.of_nat (i + c) <= max_batches)%Z →
  batch_loop farms max_batches (map (λ k, Z.of_nat k * BATCH_SIZE)%Z (seq i c))
  = map (λ k, take 20 (drop (k * 20) farms)) (seq i c).
Proof.
  induction c as [|c IH]; intros i Hle; [done|].
  cbn [seq map batch_loop]. f_equal.
  - unfold slice, BATCH_SIZE. f_equal. f_equal. lia.
  - replace (Z.of_nat i * BATCH_SIZE / BATCH_SIZE)%Z with (Z.of_nat i)
      by (unfold BATCH_SIZE; rewrite Z.div_mul; lia).
    destruct (Z.leb_spec max_batches (Z.of_nat i + 1)).
    + destruct c; [done|lia].
    + apply IH. lia.
Qed.

(** The loop with the limit [m] in force, over the farms. *)
Lemma loop_chunks {A} (farms : list A) (m : Z) :
  let len := Z.of_nat (length farms) in
  let stop := Z.min len (m * BATCH_SIZE) in
  let c := Z.to_nat ((stop + BATCH_SIZE - 1) / BATCH_SIZE) in
  batch_loop farms m (range_step stop BATCH_SIZE)
  = map (λ k, take 20 (drop (k * 20) farms)) (seq 0 c)
  ∧ (∀ k, (k < c)%nat → (k * 20 < length farms)%nat)
  ∧ (if (m <=? 0)%Z then c = 0%nat
     else if (len <=? m * BATCH_SIZE)%Z then (length farms <= c * 20)%nat
     else (c * 20)%nat = Z.to_nat (m * BATCH_SIZE)).
Proof.
  intros len stop c. unfold range_step. fold c.
  assert (m <= 0 → c = 0%nat)%Z as Hneg.
  { intros Hm. unfold c, stop, len, BATCH_SIZE. zify. Z.to_euclidean_division_equations. lia. }
  split; [|split].
  - destruct (Z.le_gt_cases m 0) as [Hm|Hm].
    + by rewrite (Hneg Hm).
    + apply batch_loop_no_break.
      unfold c, stop, len, BATCH_SIZE. zify. Z.to_euclidean_division_equations. lia.
  - intros k Hk. unfold c, stop, len, BATCH_SIZE in Hk.
    zify. Z.to_euclidean_division_equations. lia.
  - destruct (Z.leb_spec m 0) as [Hm|Hm]; [by apply Hneg|].
    destruct (Z.leb_spec len (m * BATCH_SIZE)) as [Hl|Hl];
      unfold c, stop, len, BATCH_SIZE in *; zify; Z.to_euclidean_division_equations; lia.
Qed.

(** X29. The batches of [main] are the farms in order, cut into batches
    of at most [BATCH_SIZE = 20] and none of them empty: joined together
    they give back the whole list, or its first [max_batches * 20] farms
    under [--max-batches] (a limit of 0 counts as no limit, a negative
    one processes nothing); the [break] of the loop never drops a batch
    that the range holds. *)
Theorem main_batches_cover {A} (farms : list A) (max_batches : option Z) :
  concat (main_batches farms max_batches)
  = match max_batches with
    | Some m => if (m =? 0)%Z then farms else take (Z.to_nat (m * BATCH_SIZE)) farms
    | None => farms
    end
  ∧ Forall (λ batch, (1 <= length batch <= 20)%nat) (main_batches farms max_batches).
Proof.
  destruct farms as [|farm rest].
  { split; [|by apply Forall_nil].
    destruct max_batches as [m|]; [|done]. destruct (m =? 0)%Z; [done|].
    by rewrite take_nil. }
  set (farms := farm :: rest).
  set (len := Z.of_nat (length farms)).
  set (total := ((len + BATCH_SIZE - 1) / BATCH_SIZE)%Z).
  assert (0 < len)%Z as Hlen by (unfold len, farms; simpl; lia).
  assert (0 < total ∧ len <= total * BATCH_SIZE)%Z as [Htot Hcov].
  { unfold total, BATCH_SIZE. Z.to_euclidean_division_equations. lia. }
  set (m := match max_batches with
            | Some m => if (m =? 0)%Z then total else m
            | None => total
            end).
  assert (main_batches farms max_batches
          = batch_loop farms m (range_step (Z.min len (m * BATCH_SIZE)) BATCH_SIZE)) as ->
    by reflexivity.
  destruct (loop_chunks farms m) as (Hloop & Hin & Hend). fold len in Hloop, Hend.
  cbv zeta in Hloop, Hin, Hend.
  set (c := Z.to_nat ((Z.min len (m * BATCH_SIZE) + BATCH_SIZE - 1) / BATCH_SIZE)) in *.
  rewrite Hloop. split.
  - rewrite chunks_concat.
    assert (m = total → take (c * 20) farms = farms) as Hall.
    { intros Hm. apply take_ge. rewrite Hm in Hend.
      destruct (Z.leb_spec total 0); [lia|].
      destruct (Z.leb_spec len (total * BATCH_SIZE)); [done|lia]. }
    unfold m in Hall, Hend.
    destruct max_batches as [m0|]; [|by apply Hall].
    destruct (Z.eqb_spec m0 0) as [->|Hm0]; [by apply Hall|].
    destruct (Z.leb_spec m0 0) as [Hneg|Hpos].
    + rewrite Hend. replace (Z.to_nat (m0 * BATCH_SIZE)) with 0%nat
        by (unfold BATCH_SIZE; lia). done.
    + destruct (Z.leb_spec len (m0 * BATCH_SIZE)) as [Hl|Hl].
      * rewrite !take_ge; [done| |done]. unfold len in Hl. lia.
      * by rewrite Hend.
  - apply Forall_forall. intros batch Hb.
    apply list_elem_of_fmap in Hb as (k & -> & Hk).
    apply elem_of_seq in Hk. destruct Hk as [_ Hk]. rewrite Nat.add_0_l in Hk.
    apply Hin in Hk.
    rewrite length_take, length_drop. lia.
Qed.

End BatchesFacts.

(* ===================================================================== *)
(** * Properties of the statistics *)
(* ===================================================================== *)

Module ProgressFacts.
Import Py Storage RateLimit FileWorkflow Progress RateLimitFacts.
Local Open Scope py_scope.

Lemma usable_website_error (w : json) (e : exn) :
  usable_website w = inl e → e = AttributeError.
Proof.
  unfold usable_website, bind, ret, raise, lower_of.
  destruct (truthy w); [|discriminate].
  destruct w; simpl; congruence.
Qed.

Lemma get_error (v : json) (k : string) (e : exn) :
  get v k = inl e → e = AttributeError.
Proof. destruct v; simpl; unfold raise, ret; congruence. Qed.

Lemma get_default_error (v : json) (k : string) (d : json) (e : exn) :
  get_default v k d = inl e → e = AttributeError.
Proof. destruct v; simpl; unfold raise, ret; congruence. Qed.

Lemma needs_description_error (farm : json) (e : exn) :
  needs_description farm = inl e → e = AttributeError.
Proof.
  unfold needs_description, bind, ret.
  destruct (get_default farm "contact" (JObj [])) as [e1|contact] eqn:H1.
  { intros [= <-]. by apply get_default_error in H1. }
  destruct (get contact "website") as [e2|website] eqn:H2.
  { intros [= <-]. by apply get_error in H2. }
  destruct (get farm "description") as [e3|description] eqn:H3.
  { intros [= <-]. by apply get_error in H3. }
  destruct (usable_website _) as [e4|ok] eqn:H4; [|discriminate].
  intros [= <-]. by apply usable_website_error in H4.
Qed.

Lemma selection_error (farms : list json) (e : exn) :
  get_farms_needing_descriptions farms = inl e → e = AttributeError.
Proof.
  induction farms as [|farm rest IH]; simpl; [discriminate|].
  unfold bind, ret. destruct (needs_description farm) eqn:Hn.
  - intros [= <-]. by apply needs_description_error in Hn.
  - destruct (get_farms_needing_descriptions rest); [|discriminate].
    intros [= <-]. by apply IH.
Qed.

Lemma described_error (farms : list json) (e : exn) :
  farms_with_descriptions farms = inl e → e = AttributeError.
Proof.
  induction farms as [|farm rest IH]; simpl; [discriminate|].
  unfold bind, ret. destruct (get farm "description") eqn:Hg.
  { intros [= <-]. by apply get_error in Hg. }
  destruct (farms_with_descriptions rest); [|discriminate].
  intros [= <-]. by apply IH.
Qed.

Lemma described_length (farms : list json) : ∀ described,
  farms_with_descriptions farms = inr described → (length described <= length farms)%nat.
Proof.
  induction farms as [|farm rest IH]; intros described; simpl.
  - by intros [= <-].
  - unfold bind, ret. destruct (get farm "description"); [discriminate|].
    destruct (farms_with_descriptions rest) as [|others]; [discriminate|].
    specialize (IH others eq_refl).
    destruct (truthy _); intros [= <-]; simpl; lia.
Qed.

(** X30. The statistics of [check_progress] divide by the number of
    farms: on an empty list, and on no other input, they raise
    [ZeroDivisionError]; when they are computed, the coverage lies
    between 0 and 100 percent. *)
Theorem statistics_of_no_farms (farms : list json) :
  (statistics farms = inl ZeroDivisionError ↔ farms = [])
  ∧ ∀ total described waiting coverage,
      statistics farms = inr (total, described, waiting, coverage) →
      total = length farms ∧ (0 < total)%nat ∧ (described <= total)%nat
      ∧ (0 <= coverage)%Q ∧ (coverage <= 100)%Q.
Proof.
  split.
  - split; [|by intros ->].
    unfold statistics, bind, ret.
    destruct (farms_with_descriptions farms) as [e|described] eqn:Hd.
    { intros [= ->]. by apply described_error in Hd. }
    destruct (get_farms_needing_descriptions farms) as [e|waiting] eqn:Hw.
    { intros [= ->]. by apply selection_error in Hw. }
    destruct farms as [|farm rest]; [done|].
    rewrite py_div_defined; [discriminate|].
    apply inject_Z_nonzero. simpl. lia.
  - intros total described waiting coverage.
    unfold statistics, bind, ret.
    destruct (farms_with_descriptions farms) as [e|ds] eqn:Hd; [discriminate|].
    destruct (get_farms_needing_descriptions farms) as [e|ws]; [discriminate|].
    pose proof (described_length farms ds Hd) as Hlen.
    destruct farms as [|farm rest]; [discriminate|].
    rewrite py_div_defined by (apply inject_Z_nonzero; simpl; lia).
    intros [= <- <- <- <-].
    split; [done|]. split; [simpl; lia|]. split; [done|].
    assert (0 < inject_Z (Z.of_nat (length (farm :: rest))))%Q as Hpos
      by (apply inject_Z_pos; simpl; lia).
    assert (0 <= inject_Z (Z.of_nat (length ds)))%Q as Hd0
      by (change 0%Q with (inject_Z 0); rewrite <- Zle_Qle; lia).
    assert (inject_Z (Z.of_nat (length ds)) <= inject_Z (Z.of_nat (length (farm :: rest))))%Q
      as Hd1 by (rewrite <- Zle_Qle; lia).
    assert (0 <= inject_Z (Z.of_nat (length ds)) / inject_Z (Z.of_nat (length (farm :: rest))))%Q
      as H0 by (by apply div_nonneg).
    assert (inject_Z (Z.of_nat (length ds)) / inject_Z (Z.of_nat (length (farm :: rest))) <= 1)%Q
      as H1 by (apply Qle_shift_div_r; [done|lra]).
    cbn [length] in H0, H1 |- *. split; lra.
Qed.

Lemma statistics_of_no_farms_sample :
  ∃ coverage, statistics two_farms = inr (2%nat, 1%nat, 1%nat, coverage)
              ∧ (coverage <= 100)%Q.
Proof.
  eexists. split; [reflexivity|].
  apply (proj2 (statistics_of_no_farms two_farms) 2%nat 1%nat 1%nat _ eq_refl).
Defined.

End ProgressFacts.
